(** * words.py: capitalised-word frequencies over the pages of a sitemap

    A shallow embedding of [src/words.py] and the properties of its
    specification.

    Python values are modelled as follows.
    - A [str] is the list of its Unicode code points.
    - A [Counter] is a dict: an association list in insertion order with
      unique keys; counts are Python integers ([Z]).
    - The library calls the program makes ([session.get],
      [ET.fromstring], [BeautifulSoup], [open]/[write], [input]) are
      oracles handed to the functions; each returns either its value or
      an exception.  [ET.fromstring] and [BeautifulSoup] may raise any
      exception: the parser raises [ET.ParseError] on a syntax error, and
      for instance [ValueError] on a body that declares a multi-byte
      encoding, [LookupError] on one that declares an unknown encoding.
    - The two regular expressions are kept as syntax trees and run by a
      greedy backtracking matcher, as [re] runs them. *)

From Stdlib Require Import ZArith NArith String Ascii List Bool Lia.
From Stdlib Require Import DecimalString Sorted.
From stdpp Require Import base option list gmap.

Local Open Scope Z_scope.

(** ** Strings and character classes *)

Definition char := N.
Definition str := list char.

Definition ch (a : ascii) : char := N_of_ascii a.

(** An ASCII literal as a Python [str]. *)
Definition of_ascii (s : string) : str := map ch (list_ascii_of_string s).

Definition in_range (lo hi c : char) : bool := ((lo <=? c) && (c <=? hi))%N.

Definition is_upper (c : char) : bool := in_range (ch "A") (ch "Z") c.
Definition is_lower (c : char) : bool := in_range (ch "a") (ch "z") c.
Definition is_alpha (c : char) : bool := is_lower c || is_upper c.
Definition is_digit (c : char) : bool := in_range (ch "0") (ch "9") c.

(** What CPython's [Py_UNICODE_ISSPACE] and [Py_UNICODE_ISALNUM] answer below
    128; above, the Unicode database decides ([uni_space], [uni_alnum]). *)
Definition ascii_space (c : char) : bool := (in_range 9 13 c || in_range 28 32 c)%N.
Definition ascii_alnum (c : char) : bool := is_alpha c || is_digit c.

(** ** Regular expressions *)

Inductive set_item :=
  | SRange (lo hi : char)       (* lo-hi inside [...] *)
  | SLit (c : char).            (* one literal inside [...] *)

Inductive atom :=
  | ASet (items : list set_item)  (* [...] *)
  | ASpace.                       (* \s *)

Inductive node :=
  | Boundary                      (* \b *)
  | LookBehind (a : atom)         (* (?<=a) *)
  | One (a : atom)                (* a *)
  | AtLeast (n : nat) (a : atom). (* a{n,}, and a+ for n = 1 *)

Definition regex := list node.

(** [(?<=[.!?])\s+] *)
Definition sentence_sep : regex :=
  [LookBehind (ASet [SLit (ch "."); SLit (ch "!"); SLit (ch "?")]);
   AtLeast 1 ASpace].

(** [\b[A-Z][a-zA-Z]{2,}\b] *)
Definition cap_word : regex :=
  [Boundary;
   One (ASet [SRange (ch "A") (ch "Z")]);
   AtLeast 2 (ASet [SRange (ch "a") (ch "z"); SRange (ch "A") (ch "Z")]);
   Boundary].

Section Unicode.

Variable uni_space : char -> bool.
Variable uni_alnum : char -> bool.

(** [str.isspace] on one character; also the class [\s] of [re]. *)
Definition is_space (c : char) : bool :=
  if (c <? 128)%N then ascii_space c else uni_space c.

(** The class [\w] of [re] on a [str] pattern: alphanumeric or underscore. *)
Definition is_word (c : char) : bool :=
  (if (c <? 128)%N then ascii_alnum c else uni_alnum c) || (c =? ch "_")%N.

(** ** Matching *)

Definition set_item_ok (i : set_item) (c : char) : bool :=
  match i with
  | SRange lo hi => in_range lo hi c
  | SLit d => (c =? d)%N
  end.

Definition atom_ok (a : atom) (c : char) : bool :=
  match a with
  | ASet items => existsb (fun i => set_item_ok i c) items
  | ASpace => is_space c
  end.

Definition word_before (prev : option char) : bool :=
  match prev with Some c => is_word c | None => false end.

Definition word_at (s : str) : bool :=
  match s with c :: _ => is_word c | [] => false end.

(** Greedy [a{n,}] followed by the continuation [k]: one more character
    first, the continuation when that fails and [n] are already taken.
    The result is the number of characters matched from [s] on. *)
Fixpoint match_rep (ok : char -> bool) (k : option char -> str -> option nat)
    (n : nat) (prev : option char) (s : str) : option nat :=
  match s with
  | c :: s' =>
      if ok c then
        match match_rep ok k (pred n) (Some c) s' with
        | Some l => Some (S l)
        | None => match n with O => k prev s | S _ => None end
        end
      else match n with O => k prev s | S _ => None end
  | [] => match n with O => k prev s | S _ => None end
  end.

(** [match_here r prev s]: the match of [r] that starts at the current
    position, [prev] being the character before it and [s] the rest of the
    subject; [Some l] when it matches [l] characters. *)
Fixpoint match_here (r : regex) (prev : option char) (s : str) : option nat :=
  match r with
  | [] => Some O
  | Boundary :: r' =>
      if xorb (word_before prev) (word_at s) then match_here r' prev s else None
  | LookBehind a :: r' =>
      match prev with
      | Some c => if atom_ok a c then match_here r' prev s else None
      | None => None
      end
  | One a :: r' =>
      match s with
      | c :: s' => if atom_ok a c then S <$> match_here r' (Some c) s' else None
      | [] => None
      end
  | AtLeast n a :: r' => match_rep (atom_ok a) (match_here r') n prev s
  end.

(** The scan of [re.findall]: leftmost match, then on from its end.
    [skip] counts the characters of the last match still to pass. *)
Fixpoint findall_from (r : regex) (prev : option char) (s : str) (skip : nat)
    : list str :=
  match s with
  | [] =>
      match skip, match_here r prev [] with
      | O, Some _ => [[]]
      | _, _ => []
      end
  | c :: s' =>
      match skip with
      | S k => findall_from r (Some c) s' k
      | O =>
          match match_here r prev s with
          | Some l => take l s :: findall_from r (Some c) s' (pred l)
          | None => findall_from r (Some c) s' O
          end
      end
  end.

Definition findall (r : regex) (s : str) : list str := findall_from r None s O.

(** The scan of [re.split] for a pattern without groups: the pieces between
    the matches.  Only non-empty matches separate: the pattern split on here
    cannot match the empty string. *)
Fixpoint split_from (r : regex) (prev : option char) (s : str) (skip : nat)
    : list str :=
  match s with
  | [] => [[]]
  | c :: s' =>
      match skip with
      | S k => split_from r (Some c) s' k
      | O =>
          match match_here r prev s with
          | Some (S l) => [] :: split_from r (Some c) s' l
          | _ =>
              match split_from r (Some c) s' O with
              | p :: ps => (c :: p) :: ps
              | [] => [[c]]
              end
          end
      end
  end.

Definition split (r : regex) (s : str) : list str := split_from r None s O.

End Unicode.

(** ** Counter *)

(** [collections.Counter]: a dict, kept in insertion order. *)
Definition Counter := list (str * Z).

(** [counter[w]]; a missing key reads as 0 and is not inserted. *)
Fixpoint get (c : Counter) (w : str) : Z :=
  match c with
  | [] => 0
  | (k, v) :: c' => if decide (k = w) then v else get c' w
  end.

(** [counter[w] = v]: in place when the key exists, appended otherwise. *)
Fixpoint setitem (c : Counter) (w : str) (v : Z) : Counter :=
  match c with
  | [] => [(w, v)]
  | (k, x) :: c' =>
      if decide (k = w) then (k, v) :: c' else (k, x) :: setitem c' w v
  end.

(** [counter[w] += 1] *)
Definition incr (c : Counter) (w : str) : Counter := setitem c w (get c w + 1).

(** [self.update(other)] for a Counter [other]: [dict.update] when [self]
    is empty, otherwise [self[elem] = count + self.get(elem, 0)] for each
    item of [other]. *)
Definition update (self other : Counter) : Counter :=
  match self with
  | [] => foldl (fun acc '(elem, count) => setitem acc elem count) [] other
  | _ => foldl (fun acc '(elem, count) => setitem acc elem (count + get acc elem))
               self other
  end.

(** [sorted(items, key=itemgetter(1), reverse=True)]: a stable sort, the
    larger count first, equal counts in the order of the input. *)
Fixpoint insert_desc (x : str * Z) (l : list (str * Z)) : list (str * Z) :=
  match l with
  | [] => [x]
  | y :: l' => if (y.2 <=? x.2) then x :: l else y :: insert_desc x l'
  end.

Definition most_common (c : Counter) : list (str * Z) := foldr insert_desc [] c.

(** [str(n)] for an integer. *)
Definition str_of_Z (n : Z) : str := of_ascii (NilZero.string_of_int (Z.to_int n)).

(** [f"{word}\t{count}\n"] *)
Definition report_line (e : str * Z) : str := e.1 ++ [9%N] ++ str_of_Z e.2 ++ [10%N].

(** What the loop over [most_common()] writes to the file. *)
Definition report (c : Counter) : str := concat (map report_line (most_common c)).

Section Counting.

Variable uni_space : char -> bool.
Variable uni_alnum : char -> bool.

(** The body of the loop over the sentences: every capitalised word but
    the first is counted. *)
Definition count_sentence (counter : Counter) (sentence : str) : Counter :=
  foldl incr counter (drop 1 (findall uni_space uni_alnum cap_word sentence)).

(** Lines 53 to 64 of [process_url]: from the text of the page to its counter. *)
Definition count_text (text : str) : Counter :=
  foldl count_sentence [] (split uni_space uni_alnum sentence_sep text).

End Counting.


(** ** Parsed documents *)

#[local] Unset Elimination Schemes.

(** A node of the tree [BeautifulSoup] builds. *)
Inductive Node :=
  | NString (s : str)                        (* NavigableString *)
  | NOther (s : str)                         (* Comment, Doctype, ...: not text *)
  | NTag (name : str) (children : list Node).

(** The BeautifulSoup object: the top-level nodes of the page. *)
Definition Soup := list Node.

(** [for tag in soup(names): tag.extract()]: every tag with one of the
    names leaves the tree, with all it contains. *)
Fixpoint extract_node (names : list str) (n : Node) : list Node :=
  match n with
  | NTag name children =>
      if bool_decide (name ∈ names) then []
      else [NTag name (flat_map (extract_node names) children)]
  | _ => [n]
  end.

Definition extract_all (names : list str) (soup : Soup) : Soup :=
  flat_map (extract_node names) soup.

(** The strings [get_text] collects, in document order. *)
Fixpoint strings (n : Node) : list str :=
  match n with
  | NString s => [s]
  | NOther _ => []
  | NTag _ children => flat_map strings children
  end.

(** [separator.join(l)] *)
Fixpoint join (separator : str) (l : list str) : str :=
  match l with
  | [] => []
  | [x] => x
  | x :: l' => x ++ separator ++ join separator l'
  end.

Definition get_text (separator : str) (soup : Soup) : str :=
  join separator (flat_map strings soup).

(** An [xml.etree.ElementTree.Element]: the tag with its namespace in Clark
    notation, the text before the first child, the children. *)
Inductive Element :=
  | Elem (tag : str) (text : option str) (children : list Element).

#[local] Set Elimination Schemes.

Definition tag (e : Element) : str := let 'Elem t _ _ := e in t.
Definition text (e : Element) : option str := let 'Elem _ t _ := e in t.
Definition children (e : Element) : list Element := let 'Elem _ _ c := e in c.

Fixpoint self_and_descendants (e : Element) : list Element :=
  match e with
  | Elem _ _ cs => e :: flat_map self_and_descendants cs
  end.

(** [root.findall('.//' + name)]: the descendants of [root] with that tag,
    in document order. *)
Definition findall_descendants (name : str) (root : Element) : list Element :=
  filter (fun e => tag e = name) (flat_map self_and_descendants (children root)).

Definition sitemap_loc : str :=
  of_ascii "{http://www.sitemaps.org/schemas/sitemap/0.9}loc".

(** ** The world the program runs in *)

Inductive Exn :=
  | RequestException (msg : str)
  | ParseError (msg : str)
  | IOError (msg : str)
  | EOFError
  | OtherException (msg : str).

Inductive Result (A : Type) :=
  | Ret (a : A)
  | Raise (e : Exn).
Arguments Ret {A} a.
Arguments Raise {A} e.

Record Response := {
  status_code : Z;
  content : list N;      (* the body, bytes *)
  resp_text : str        (* the body, decoded *)
}.

(** The lines the program logs. *)
Inductive Msg :=
  | ErrSitemapDownload (url : str) (e : Exn)   (* error: Errore download sitemap *)
  | ErrSitemapParse (url : str) (e : Exn)      (* error: Errore parsing XML sitemap *)
  | InfoFound (n : nat) (url : str)            (* info: Trovate n URL in url *)
  | WarnDownload (url : str) (e : Exn)         (* warning: Fallito download *)
  | InfoStart (total : nat)                    (* info: Inizio scansione *)
  | ErrProcessing (url : str) (e : Exn)        (* error: Errore processing *)
  | InfoProgress (idx total : nat) (url : str) (* info: Pagina idx/total *)
  | InfoSaved (file : str)                     (* info: Risultati salvati *)
  | ErrWrite (file : str) (e : Exn).           (* error: Errore scrittura file *)

Inductive Level := INFO | WARNING | ERROR.

Definition level (m : Msg) : Level :=
  match m with
  | ErrSitemapDownload _ _ | ErrSitemapParse _ _ | ErrProcessing _ _
  | ErrWrite _ _ => ERROR
  | WarnDownload _ _ => WARNING
  | InfoFound _ _ | InfoStart _ | InfoProgress _ _ _ | InfoSaved _ => INFO
  end.

(** A call: the lines it logs and how it ends. *)
Definition Py (A : Type) : Type := list Msg * Result A.

(** The library calls: [session.get] raises a [requests.RequestException]
    (the message is kept); [ET.fromstring] raises [ET.ParseError] or any
    other exception; [BeautifulSoup], [extract] and [get_text] raise any
    exception; writing the file raises an [IOError]; [input] raises an
    [EOFError] at the end of the input.  [as_completed] hands back the
    futures in the order they complete. *)
Record World := {
  session_get : str -> str + Response;
  ET_fromstring : list N -> Result Element;
  BeautifulSoup : str -> Result Soup;
  as_completed : list (str * Py Counter) -> list (str * Py Counter);
  write_file : str -> str -> option str;
  input : option str
}.

(** [resp.raise_for_status()]: an [HTTPError], which is a
    [RequestException], for a 4xx or 5xx status. *)
Definition raise_for_status (resp : Response) : option str :=
  if (400 <=? status_code resp) && (status_code resp <? 600)
  then Some (str_of_Z (status_code resp))
  else None.

(** [session.get(url, timeout=10)] then [resp.raise_for_status()] *)
Definition fetch (w : World) (url : str) : str + Response :=
  match session_get w url with
  | inl e => inl e
  | inr resp =>
      match raise_for_status resp with
      | Some e => inl e
      | None => inr resp
      end
  end.

Definition ret {A} (a : A) : Py A := ([], Ret a).

Definition bind {A B} (k : A -> Py B) (m : Py A) : Py B :=
  match m with
  | (l, Ret a) => let '(l', r) := k a in (l ++ l', r)
  | (l, Raise e) => (l, Raise e)
  end.

#[export] Instance Py_ret : MRet Py := @ret.
#[export] Instance Py_bind : MBind Py := @bind.

Definition logging (m : Msg) : Py unit := ([m], Ret tt).

Section Program.

Variable uni_space : char -> bool.
Variable uni_alnum : char -> bool.

(** [s.strip()] *)
Fixpoint lstrip (s : str) : str :=
  match s with
  | c :: s' => if is_space uni_space c then lstrip s' else s
  | [] => []
  end.

Definition strip (s : str) : str := rev (lstrip (rev (lstrip s))).

(** [[loc.text.strip() for loc in root.findall(...) if loc.text]] *)
Definition loc_urls (root : Element) : list str :=
  flat_map (fun loc =>
              match text loc with
              | Some (c :: t) => [strip (c :: t)]
              | _ => []
              end)
           (findall_descendants sitemap_loc root).

Definition get_urls_from_sitemap (w : World) (sitemap_url : str) : Py (list str) :=
  match fetch w sitemap_url with
  | inl e =>
      logging (ErrSitemapDownload sitemap_url (RequestException e)) ;;
      ret []
  | inr resp =>
      match ET_fromstring w (content resp) with
      | Raise (ParseError e) =>
          logging (ErrSitemapParse sitemap_url (ParseError e)) ;;
          ret []
      | Raise e => ([], Raise e)
      | Ret root =>
          let urls := loc_urls root in
          logging (InfoFound (length urls) sitemap_url) ;;
          ret urls
      end
  end.

Definition process_url (w : World) (url : str) : Py Counter :=
  match fetch w url with
  | inl e =>
      logging (WarnDownload url (RequestException e)) ;;
      ret []
  | inr resp =>
      match BeautifulSoup w (resp_text resp) with
      | Raise e => ([], Raise e)
      | Ret soup =>
          let soup := extract_all [of_ascii "script"; of_ascii "style"] soup in
          let text := get_text (of_ascii " ") soup in
          ret (count_text uni_space uni_alnum text)
      end
  end.

Definition sitemap_urls : list str :=
  [of_ascii "https://consulente-finanziario.org/post-sitemap.xml";
   of_ascii "https://consulente-finanziario.org/post-sitemap2.xml"].

(** [for sm in sitemap_urls: all_urls.extend(get_urls_from_sitemap(sm, session))] *)
Fixpoint collect_urls (w : World) (sms : list str) (all_urls : list str)
    : Py (list str) :=
  match sms with
  | [] => ret all_urls
  | sm :: sms' =>
      urls ← get_urls_from_sitemap w sm;
      collect_urls w sms' (all_urls ++ urls)
  end.

(** The loop over [as_completed(futures)]: each future carries its URL,
    the lines its worker logged and its result.  [except Exception] takes
    every exception of the model. *)
Fixpoint merge_loop (total idx : nat) (completed : list (str * Py Counter))
    (total_counter : Counter) : Py Counter :=
  match completed with
  | [] => ret total_counter
  | (url, (worker_log, result)) :: completed' =>
      total_counter ←
        ((worker_log,
          match result with
          | Ret c => Ret (update total_counter c)
          | Raise e => Ret total_counter
          end) : Py Counter);
      match result with
      | Ret _ => ret tt
      | Raise e => logging (ErrProcessing url e)
      end;;
      logging (InfoProgress idx total url);;
      merge_loop total (S idx) completed' total_counter
  end.

Definition output_file : str := of_ascii "word_counts.txt".

(** How the process ends. *)
Inductive Exit :=
  | Normal                  (* main returns *)
  | SysExit (code : Z)      (* sys.exit(code) *)
  | Uncaught (e : Exn).     (* traceback *)

Definition exit_status (x : Exit) : Z :=
  match x with
  | Normal => 0
  | SysExit code => code
  | Uncaught _ => 1
  end.

Record Outcome := {
  exit : Exit;
  log : list Msg;
  written : option str      (* what word_counts.txt holds, when written *)
}.

(** Lines 80 to 99: the global counter of the run. *)
Definition crawl (w : World) : Py Counter :=
  all_urls ← collect_urls w sitemap_urls [];
  let total := length all_urls in
  logging (InfoStart total);;
  let futures := map (fun url => (url, process_url w url)) all_urls in
  merge_loop total 1 (as_completed w futures) [].

Definition main (w : World) : Outcome :=
  match crawl w with
  | (l, Raise e) => {| exit := Uncaught e; log := l; written := None |}
  | (l, Ret total_counter) =>
      match write_file w output_file (report total_counter) with
      | Some e =>
          {| exit := SysExit 1;
             log := l ++ [ErrWrite output_file (IOError e)];
             written := None |}
      | None =>
          let l := l ++ [InfoSaved output_file] in
          match input w with
          | Some _ =>
              {| exit := Normal; log := l; written := Some (report total_counter) |}
          | None =>
              {| exit := Uncaught EOFError; log := l;
                 written := Some (report total_counter) |}
          end
      end
  end.

End Program.

(** ** Notions the properties are stated with *)

Definition keys (c : Counter) : list str := c.*1.

(** A dict holds each key once. *)
Definition is_dict (c : Counter) : Prop := NoDup (keys c).

(** The mapping a Counter stands for: what [==] compares. *)
Definition counts (c : Counter) : gmap str Z := list_to_map c.

Definition all_positive (c : Counter) : Prop := Forall (fun e => 0 < e.2) c.

(** The sum of all counts of a Counter. *)
Fixpoint sum_counts (c : Counter) : Z :=
  match c with
  | [] => 0
  | (_, v) :: c' => v + sum_counts c'
  end.

(** How often a word occurs in a list of words. *)
Definition occurrences (w : str) (l : list str) : Z :=
  Z.of_nat (length (filter (fun x => x = w) l)).

(** The counter a completed future hands to the merge: its result, or
    nothing when it raised. *)
Definition page_counter (f : str * Py Counter) : Counter :=
  match f.2.2 with
  | Ret c => c
  | Raise _ => []
  end.

(** The word-by-word sum over a list of counters. *)
Fixpoint sum_at (w : str) (l : list Counter) : Z :=
  match l with
  | [] => 0
  | c :: l' => get c w + sum_at w l'
  end.

(** ** The words of a sentence, as the specification describes them *)

Section SpecWords.

Variable uni_alnum : char → bool.

(** The stretches of [s] between its non-word characters, left to right:
    each is a maximal run of word characters, with a word boundary at both
    ends when it is not empty. *)
Fixpoint word_runs (s : str) : list str :=
  match s with
  | [] => [[]]
  | c :: s' =>
      if is_word uni_alnum c then
        match word_runs s' with
        | p :: ps => (c :: p) :: ps
        | [] => [[c]]
        end
      else [] :: word_runs s'
  end.

(** An uppercase ASCII letter, then two or more ASCII letters. *)
Definition qualifies (t : str) : bool :=
  match t with
  | c :: t' => is_upper c && forallb is_alpha t' && (2 <=? length t')%nat
  | [] => false
  end.

Definition qualifying_tokens (s : str) : list str :=
  filter (fun t => qualifies t = true) (word_runs s).

End SpecWords.

(** Runs put back together, one separating character between neighbours. *)
Fixpoint interleave (rs : list str) (seps : list char) : str :=
  match rs, seps with
  | r :: rs', c :: seps' => r ++ c :: interleave rs' seps'
  | r :: _, [] => r
  | [], _ => []
  end.

(** [t] occurs in [s] as a contiguous stretch. *)
Definition occurs_in (t s : str) : Prop := ∃ pre post, s = pre ++ t ++ post.

(** The strings of a page outside any [script] or [style] element. *)
Fixpoint visible_strings (n : Node) : list str :=
  match n with
  | NString s => [s]
  | NOther _ => []
  | NTag name children =>
      if bool_decide (name = of_ascii "script") || bool_decide (name = of_ascii "style")
      then []
      else flat_map visible_strings children
  end.

(** The URLs of the [loc] elements of a sitemap, read off the tree: an
    element gives its own URL, when it is a [loc] of the sitemap namespace
    with a text, and then those of its children. *)
Section SpecSitemap.

Variable uni_space : char → bool.



End SpecSitemap.

(** The same world with the futures completing in another order. *)
Definition with_completion (w : World)
    (order : list (str * Py Counter) → list (str * Py Counter)) : World :=
  {| session_get := session_get w;
     ET_fromstring := ET_fromstring w;
     BeautifulSoup := BeautifulSoup w;
     as_completed := order;
     write_file := write_file w;
     input := input w |}.

(** ** Notions for the run as a whole *)

(** What a call returned, nothing when it raised. *)
Definition returned {A} (p : Py (list A)) : list A :=
  match p.2 with
  | Ret l => l
  | Raise _ => []
  end.

(** Reading each of the sitemaps [sms] returns: no call raises. *)
Definition reads_return (uni_space : char → bool) (w : World) (sms : list str) : Prop :=
  ∀ sm, sm ∈ sms → ∃ urls, (get_urls_from_sitemap uni_space w sm).2 = Ret urls.

(** The URLs of all sitemaps, and the futures submitted for them. *)
Definition all_urls (uni_space : char → bool) (w : World) : list str :=
  flat_map (fun sm => returned (get_urls_from_sitemap uni_space w sm)) sitemap_urls.

Definition futures (uni_space uni_alnum : char → bool) (w : World)
    : list (str * Py Counter) :=
  map (fun url => (url, process_url uni_space uni_alnum w url)) (all_urls uni_space w).

(** The sum of all counts of a list of counters. *)
Fixpoint total_of (cs : list Counter) : Z :=
  match cs with
  | [] => 0
  | c :: cs' => sum_counts c + total_of cs'
  end.

(** How often the character [x] stands in [s]. *)
Fixpoint count_char (x : char) (s : str) : nat :=
  match s with
  | [] => O
  | c :: s' => ((if (c =? x)%N then 1 else 0) + count_char x s')%nat
  end.

(** The progress lines among the lines of a log: index, total, URL. *)
Definition progress (m : Msg) : list (nat * nat * str) :=
  match m with
  | InfoProgress idx total url => [(idx, total, url)]
  | _ => []
  end.

(** Pieces put back together with what separated them. *)
Fixpoint weave (ps : list str) (seps : list str) : str :=
  match ps, seps with
  | p :: ps', sep :: seps' => p ++ sep ++ weave ps' seps'
  | p :: _, [] => p
  | [], _ => []
  end.

(** The number of characters at the start of [s] that satisfy [ok]. *)
Fixpoint leading (ok : char → bool) (s : str) : nat :=
  match s with
  | c :: s' => if ok c then S (leading ok s') else O
  | [] => O
  end.

(** A full stop, an exclamation mark or a question mark. *)
Definition is_end_mark (c : char) : bool :=
  ((c =? ch ".") || (c =? ch "!") || (c =? ch "?"))%N.

Definition ends_with_mark (p : str) : bool :=
  match last p with
  | Some c => is_end_mark c
  | None => false
  end.

(** An end mark stands right before the position. *)
Definition mark_before (prev : option char) : bool :=
  match prev with
  | Some c => is_end_mark c
  | None => false
  end.

(** An end mark is the last character up to the end of [p], which starts
    after [prev]. *)
Definition mark_at_end (prev : option char) (p : str) : bool :=
  match last p with
  | Some c => is_end_mark c
  | None => mark_before prev
  end.

(** A separator: white space, at least one character. *)
Definition sep_ok (uni_space : char → bool) (sep : str) : Prop :=
  sep ≠ [] ∧ forallb (is_space uni_space) sep = true.

Definition starts_with_space (uni_space : char → bool) (p : str) : bool :=
  match p with
  | c :: _ => is_space uni_space c
  | [] => false
  end.

(** [f] holds of every element but the last. *)
Fixpoint all_but_last {A} (f : A → bool) (l : list A) : bool :=
  match l with
  | [] | [_] => true
  | x :: l' => f x && all_but_last f l'
  end.

(** ** Sample inputs *)

Definition no_unicode : char → bool := fun _ => false.

Definition sample_futures : list (str * Py Counter) :=
  [(of_ascii "https://example.com/a", ([], Ret [(of_ascii "World", 1)]));
   (of_ascii "https://example.com/b",
    ([], Ret [(of_ascii "World", 2); (of_ascii "Fox", 1)]));
   (of_ascii "https://example.com/c", ([], Raise (OtherException [])))].

Definition sitemap_1 : str :=
  of_ascii "https://consulente-finanziario.org/post-sitemap.xml".
Definition sitemap_2 : str :=
  of_ascii "https://consulente-finanziario.org/post-sitemap2.xml".

Definition url_a : str := of_ascii "https://example.com/a".
Definition url_b : str := of_ascii "https://example.com/b".

Definition sitemap_ns (name : string) : str :=
  of_ascii "{http://www.sitemaps.org/schemas/sitemap/0.9}" ++ of_ascii name.

(** [<urlset xmlns="http://www.sitemaps.org/schemas/sitemap/0.9"><url><loc>
    https://example.com/a</loc></url><url><loc>https://example.com/b</loc>
    </url></urlset>], parsed. *)
Definition urlset_in_namespace : Element :=
  Elem (sitemap_ns "urlset") None
    [Elem (sitemap_ns "url") None [Elem (sitemap_ns "loc") (Some url_a) []];
     Elem (sitemap_ns "url") None [Elem (sitemap_ns "loc") (Some url_b) []]].

(** [<urlset><url><loc>https://example.com/a</loc></url><url><loc>
    https://example.com/b</loc></url></urlset>], parsed: without a namespace
    declaration the tags are the bare names. *)
Definition urlset_bare : Element :=
  Elem (of_ascii "urlset") None
    [Elem (of_ascii "url") None [Elem (of_ascii "loc") (Some url_a) []];
     Elem (of_ascii "url") None [Elem (of_ascii "loc") (Some url_b) []]].

(** A urlset whose second loc holds only white space, whose third is empty. *)
Definition urlset_blank_loc : Element :=
  Elem (sitemap_ns "urlset") None
    [Elem (sitemap_ns "url") None
       [Elem (sitemap_ns "loc") (Some (of_ascii "  https://example.com/a ")) []];
     Elem (sitemap_ns "url") None [Elem (sitemap_ns "loc") (Some (of_ascii "  ")) []];
     Elem (sitemap_ns "url") None [Elem (sitemap_ns "loc") None []]].

Definition hello_text : str := of_ascii "Hello World. Quick Brown Fox jumps.".

(** A page: a script in the head, the text in a paragraph. *)
Definition hello_page : Soup :=
  [NOther (of_ascii "html");
   NTag (of_ascii "html")
     [NTag (of_ascii "head")
        [NTag (of_ascii "script") [NString (of_ascii "var Hidden Secret Token;")];
         NTag (of_ascii "style") [NString (of_ascii "body Margin Zero Auto")]];
      NTag (of_ascii "body")
        [NTag (of_ascii "p") [NString hello_text];
         NOther (of_ascii "a Comment With Capitals")]]].

(** A page without a capitalised word. *)
Definition plain_page : Soup :=
  [NTag (of_ascii "p") [NString (of_ascii "nothing to see here. move on, please.")]].

(** One line of the report, written out. *)
Definition line (word count : string) : str :=
  of_ascii word ++ [9%N] ++ of_ascii count ++ [10%N].

Definition url_c : str := of_ascii "https://example.com/c".

Definition apple_banana_cherry : Counter :=
  [(of_ascii "Apple", 5); (of_ascii "Banana", 5); (of_ascii "Cherry", 1)].

Definition ok_response (body : str) : Response :=
  {| status_code := 200; content := body; resp_text := body |}.

(** A world of four documents: the first sitemap is [tree], page a is
    [hello_page], page b is not found, page c is [plain_page]; everything
    else is unreachable.  The futures complete in reverse. *)
Definition sample_world (tree : Element) (written : option str) (line : option str)
    : World :=
  {| session_get url :=
       if bool_decide (url = sitemap_1)
       then inr (ok_response (of_ascii "sitemap"))
       else if bool_decide (url = url_a) then inr (ok_response (of_ascii "page"))
       else if bool_decide (url = url_b)
       then inr {| status_code := 404; content := []; resp_text := [] |}
       else if bool_decide (url = url_c) then inr (ok_response (of_ascii "plain"))
       else inl (of_ascii "unreachable");
     ET_fromstring body :=
       if bool_decide (body = of_ascii "sitemap") then Ret tree
       else Raise (ParseError (of_ascii "syntax error"));
     BeautifulSoup markup :=
       if bool_decide (markup = of_ascii "page") then Ret hello_page
       else if bool_decide (markup = of_ascii "plain") then Ret plain_page
       else Raise (OtherException (of_ascii "recursion"));
     as_completed := reverse;
     write_file _ _ := written;
     input := line |}.

(** A malformed body that declares a multi-byte encoding: the parser
    refuses it with a [ValueError] before it reads any element. *)
Definition shift_jis_body : str :=
  of_ascii "<?xml version='1.0' encoding='Shift_JIS'?><urlset><url>".

Definition multi_byte_error : Exn :=
  OtherException (of_ascii "ValueError: multi-byte encodings are not supported").

(** The world [w] with that body served for the second sitemap. *)
Definition with_undecodable_sitemap (w : World) : World :=
  {| session_get url :=
       if bool_decide (url = sitemap_2) then inr (ok_response shift_jis_body)
       else session_get w url;
     ET_fromstring body :=
       if bool_decide (body = shift_jis_body) then Raise multi_byte_error
       else ET_fromstring w body;
     BeautifulSoup := BeautifulSoup w;
     as_completed := as_completed w;
     write_file := write_file w;
     input := input w |}.

(** * Properties *)

(** ** Counter *)

Lemma keys_nil : keys [] = [].
Proof. reflexivity. Qed.

Lemma keys_cons k n c : keys ((k, n) :: c) = k :: keys c.
Proof. reflexivity. Qed.

Lemma get_setitem_eq c w v : get (setitem c w v) w = v.
Proof.
  induction c as [|[k x] c IH]; simpl.
  - by rewrite decide_True.
  - destruct (decide (k = w)) as [->|Hne]; simpl.
    + by rewrite decide_True.
    + by rewrite decide_False.
Qed.

Lemma get_setitem_ne c w w' v : w ≠ w' → get (setitem c w v) w' = get c w'.
Proof.
  intros Hne. induction c as [|[k x] c IH]; simpl.
  - by rewrite decide_False.
  - destruct (decide (k = w)) as [->|Hk]; simpl.
    + by rewrite !decide_False.
    + destruct (decide (k = w')); done.
Qed.

Lemma get_setitem c w w' v :
  get (setitem c w v) w' = if decide (w = w') then v else get c w'.
Proof.
  destruct (decide (w = w')) as [->|Hne].
  - apply get_setitem_eq.
  - by apply get_setitem_ne.
Qed.

Lemma keys_setitem c w v :
  keys (setitem c w v) = if decide (w ∈ keys c) then keys c else keys c ++ [w].
Proof.
  unfold keys. induction c as [|[k x] c IH].
  - rewrite decide_False; [done | apply not_elem_of_nil].
  - cbn [setitem]. destruct (decide (k = w)) as [->|Hk].
    + rewrite decide_True; [done | left].
    + rewrite !fmap_cons, IH. cbn [fst].
      destruct (decide (w ∈ c.*1)) as [Hin|Hin].
      * rewrite decide_True; [done | by right].
      * rewrite decide_False; [done |].
        intros Hin'. apply elem_of_cons in Hin' as [?|?]; congruence.
Qed.

Lemma is_dict_setitem c w v : is_dict c → is_dict (setitem c w v).
Proof.
  unfold is_dict. intros Hc. rewrite keys_setitem.
  destruct (decide (w ∈ keys c)); [done |].
  apply NoDup_app. split_and!; [done | | apply NoDup_singleton].
  intros x Hx Hx'. apply list_elem_of_singleton in Hx' as ->. done.
Qed.

Lemma get_in_keys c w : get c w ≠ 0 → w ∈ keys c.
Proof.
  unfold keys. induction c as [|[k x] c IH]; simpl; [done |].
  destruct (decide (k = w)) as [->|?]; [left | right; auto].
Qed.

Lemma get_not_in_keys c w : w ∉ keys c → get c w = 0.
Proof.
  unfold keys. induction c as [|[k x] c IH]; simpl; [done |].
  intros Hn. destruct (decide (k = w)) as [->|?].
  - exfalso. apply Hn. left.
  - apply IH. intros ?. apply Hn. by right.
Qed.

Lemma counts_lookup c w :
  counts c !! w = if decide (w ∈ keys c) then Some (get c w) else None.
Proof.
  unfold counts, keys. induction c as [|[k x] c IH].
  - rewrite list_to_map_nil, lookup_empty, decide_False;
      [done | apply not_elem_of_nil].
  - rewrite list_to_map_cons, fmap_cons. cbn [get fst].
    destruct (decide (k = w)) as [->|Hk].
    + rewrite lookup_insert_eq, decide_True; [done | left].
    + rewrite lookup_insert_ne, IH by done.
      destruct (decide (w ∈ c.*1)) as [Hin|Hin].
      * rewrite decide_True; [done | by right].
      * rewrite decide_False; [done |].
        intros Hin'. apply elem_of_cons in Hin' as [?|?]; congruence.
Qed.

Lemma all_positive_setitem c w v : all_positive c → 0 < v → all_positive (setitem c w v).
Proof.
  unfold all_positive. intros Hc Hv. induction c as [|[k x] c IH]; simpl.
  - by constructor.
  - inversion Hc; subst. destruct (decide (k = w)); constructor; auto.
Qed.

Lemma all_positive_get c w : all_positive c → 0 ≤ get c w.
Proof.
  unfold all_positive. induction c as [|[k x] c IH]; simpl; [lia |].
  intros Hc. inversion Hc; subst. simpl in *.
  destruct (decide (k = w)); [lia | auto].
Qed.

Lemma sum_counts_setitem c w v : sum_counts (setitem c w v) = sum_counts c + v - get c w.
Proof.
  induction c as [|[k x] c IH]; cbn [setitem sum_counts get]; [lia |].
  destruct (decide (k = w)); cbn [sum_counts]; lia.
Qed.

(** Folding items into a Counter with [setitem], whatever value is stored. *)
Section FoldSetitem.

Variable f : Counter → str → Z → Z.

Let step (acc : Counter) (e : str * Z) : Counter :=
  let '(elem, count) := e in setitem acc elem (f acc elem count).

Lemma keys_foldl_setitem acc d x :
  x ∈ keys (foldl step acc d) ↔ x ∈ keys acc ∨ x ∈ keys d.
Proof.
  revert acc. induction d as [|[k n] d IH]; intros acc; cbn [foldl].
  - rewrite keys_nil, elem_of_nil. tauto.
  - rewrite IH. unfold step at 1. rewrite keys_setitem, keys_cons, elem_of_cons.
    destruct (decide (k ∈ keys acc)) as [Hk|Hk].
    + split; [tauto |]. intros [?|[->|?]]; tauto.
    + rewrite elem_of_app, list_elem_of_singleton. tauto.
Qed.

Lemma is_dict_foldl_setitem acc d : is_dict acc → is_dict (foldl step acc d).
Proof.
  revert acc. induction d as [|[k n] d IH]; intros acc Hacc; cbn [foldl]; [done |].
  apply IH. by apply is_dict_setitem.
Qed.

Lemma all_positive_foldl_setitem acc d :
  (∀ a e n, all_positive a → 0 < n → 0 < f a e n) →
  all_positive acc → all_positive d → all_positive (foldl step acc d).
Proof.
  intros Hf. revert acc. induction d as [|[k n] d IH]; intros acc Hacc Hd;
    cbn [foldl]; [done |].
  inversion Hd; subst. apply IH; [| done].
  apply all_positive_setitem; [done |]. by apply Hf.
Qed.

End FoldSetitem.

Lemma get_foldl_add acc d w :
  is_dict d →
  get (foldl (fun acc '(elem, count) => setitem acc elem (count + get acc elem)) acc d) w
  = get acc w + get d w.
Proof.
  revert acc. induction d as [|[k n] d IH]; intros acc Hd; cbn [foldl get].
  - lia.
  - apply NoDup_cons in Hd as [Hk Hd]. rewrite IH by done.
    rewrite get_setitem. destruct (decide (k = w)) as [->|Hne].
    + rewrite (get_not_in_keys d w) by done. lia.
    + done.
Qed.

Lemma get_foldl_set acc d w :
  is_dict d →
  get (foldl (fun acc '(elem, count) => setitem acc elem count) acc d) w
  = if decide (w ∈ keys d) then get d w else get acc w.
Proof.
  revert acc. induction d as [|[k n] d IH]; intros acc Hd; cbn [foldl get].
  - rewrite decide_False; [done | apply not_elem_of_nil].
  - apply NoDup_cons in Hd as [Hk Hd]. rewrite IH by done.
    rewrite keys_cons.
    destruct (decide (k = w)) as [->|Hne].
    + rewrite decide_False by done. rewrite decide_True by left.
      apply get_setitem_eq.
    + rewrite get_setitem_ne by done.
      destruct (decide (w ∈ keys d)) as [Hin|Hin].
      * rewrite decide_True; [done | by right].
      * rewrite decide_False; [done |].
        intros Hin'. apply elem_of_cons in Hin' as [?|?]; congruence.
Qed.

(** [update] adds, word by word. *)
Lemma get_update self other w :
  is_dict other → get (update self other) w = get self w + get other w.
Proof.
  intros Hd. unfold update. destruct self as [|e self].
  - rewrite get_foldl_set by done.
    destruct (decide (w ∈ keys other)); cbn [get]; [lia |].
    by rewrite get_not_in_keys.
  - by rewrite get_foldl_add.
Qed.

Lemma keys_update self other x :
  x ∈ keys (update self other) ↔ x ∈ keys self ∨ x ∈ keys other.
Proof.
  unfold update. destruct self as [|e self].
  - apply (keys_foldl_setitem (fun _ _ n => n)).
  - apply (keys_foldl_setitem (fun acc elem n => n + get acc elem)).
Qed.

Lemma is_dict_update self other : is_dict self → is_dict (update self other).
Proof.
  intros Hs. unfold update. destruct self as [|e self].
  - by apply (is_dict_foldl_setitem (fun _ _ n => n)).
  - by apply (is_dict_foldl_setitem (fun acc elem n => n + get acc elem)).
Qed.

Lemma all_positive_update self other :
  all_positive self → all_positive other → all_positive (update self other).
Proof.
  intros Hs Ho. unfold update. destruct self as [|e self].
  - apply (all_positive_foldl_setitem (fun _ _ n => n)); auto.
  - apply (all_positive_foldl_setitem (fun acc elem n => n + get acc elem)); auto.
    intros a k n Ha Hn. pose proof (all_positive_get a k Ha). lia.
Qed.

Lemma update_nil self : update self [] = self.
Proof. by destruct self. Qed.

(** ** The merge of the completed pages *)

Lemma merge_loop_result total idx fs tc :
  (merge_loop total idx fs tc).2 = Ret (foldl update tc (map page_counter fs)).
Proof.
  revert idx tc. induction fs as [|[url [wl r]] fs IH]; intros idx tc; [done |].
  cbn [merge_loop map foldl]. unfold mbind, Py_bind, bind, logging, mret, Py_ret, ret.
  destruct r as [c|e]; unfold page_counter at 1; cbn [snd].
  - specialize (IH (S idx) (update tc c)).
    destruct (merge_loop total (S idx) fs (update tc c)) as [l' r']. exact IH.
  - specialize (IH (S idx) tc). rewrite update_nil.
    destruct (merge_loop total (S idx) fs tc) as [l' r']. exact IH.
Qed.

Lemma get_foldl_update tc cs w :
  Forall is_dict cs → get (foldl update tc cs) w = get tc w + sum_at w cs.
Proof.
  intros Hcs. revert tc. induction Hcs as [|c cs Hc Hcs IH]; intros tc;
    cbn [foldl sum_at]; [lia |].
  rewrite IH, get_update by done. lia.
Qed.

Lemma keys_foldl_update tc cs w :
  w ∈ keys (foldl update tc cs) ↔ w ∈ keys tc ∨ ∃ c, c ∈ cs ∧ w ∈ keys c.
Proof.
  revert tc. induction cs as [|c cs IH]; intros tc; cbn [foldl].
  - split; [tauto |]. intros [?|(c & Hc & _)]; [done |]. by apply elem_of_nil in Hc.
  - rewrite IH, keys_update. split.
    + intros [[?|?]|(c' & ? & ?)]; [tauto | right; exists c | right; exists c'];
        split; try done; [left | by right].
    + intros [?|(c' & Hc' & ?)]; [tauto |].
      apply elem_of_cons in Hc' as [->|?]; [tauto |]. right. by exists c'.
Qed.

Lemma is_dict_foldl_update tc cs : is_dict tc → is_dict (foldl update tc cs).
Proof.
  revert tc. induction cs as [|c cs IH]; intros tc Htc; cbn [foldl]; [done |].
  apply IH. by apply is_dict_update.
Qed.

Lemma all_positive_foldl_update tc cs :
  all_positive tc → Forall all_positive cs → all_positive (foldl update tc cs).
Proof.
  intros Htc Hcs. revert tc Htc. induction Hcs as [|c cs Hc Hcs IH]; intros tc Htc;
    cbn [foldl]; [done |].
  apply IH. by apply all_positive_update.
Qed.

Lemma sum_at_perm w cs cs' : cs ≡ₚ cs' → sum_at w cs = sum_at w cs'.
Proof. induction 1; cbn [sum_at]; lia. Qed.

(** The loop can be cut anywhere: the total after the first futures is the
    total the loop over them alone returns. *)
Lemma merge_loop_app total idx fs fs' tc :
  merge_loop total idx (fs ++ fs') tc
  = (tc' ← merge_loop total idx fs tc;
     merge_loop total (idx + length fs) fs' tc').
Proof.
  revert idx tc. induction fs as [|[url [wl r]] fs IH]; intros idx tc.
  - cbn [app merge_loop length]. rewrite Nat.add_0_r.
    unfold mbind, Py_bind, bind, mret, Py_ret, ret.
    by destruct (merge_loop total idx fs' tc).
  - cbn [app merge_loop length].
    replace (idx + S (length fs))%nat with (S idx + length fs)%nat by lia.
    unfold mbind, Py_bind, bind, logging, mret, Py_ret, ret in *.
    destruct r as [c|e].
    + rewrite IH. destruct (merge_loop total (S idx) fs (update tc c)) as [l [c'|e']].
      * destruct (merge_loop total _ fs' c') as [l' r']. by rewrite !app_assoc.
      * done.
    + rewrite IH. destruct (merge_loop total (S idx) fs tc) as [l [c'|e']].
      * destruct (merge_loop total _ fs' c') as [l' r']. by rewrite !app_assoc.
      * done.
Qed.

(** ** Counting the words of a page *)

Lemma occurrences_nil w : occurrences w [] = 0.
Proof. reflexivity. Qed.

Lemma occurrences_cons w x l :
  occurrences w (x :: l) = (if decide (x = w) then 1 else 0) + occurrences w l.
Proof.
  unfold occurrences. rewrite filter_cons.
  destruct (decide (x = w)); cbn [length]; lia.
Qed.

Lemma occurrences_app w l l' :
  occurrences w (l ++ l') = occurrences w l + occurrences w l'.
Proof. unfold occurrences. rewrite filter_app, length_app. lia. Qed.

Lemma get_incr c x w :
  get (incr c x) w = get c w + (if decide (x = w) then 1 else 0).
Proof.
  unfold incr. rewrite get_setitem.
  destruct (decide (x = w)) as [->|?]; lia.
Qed.

Lemma get_foldl_incr c ws w :
  get (foldl incr c ws) w = get c w + occurrences w ws.
Proof.
  revert c. induction ws as [|x ws IH]; intros c; cbn [foldl].
  - rewrite occurrences_nil. lia.
  - rewrite IH, get_incr, occurrences_cons. lia.
Qed.

Lemma sum_counts_foldl_incr c ws :
  sum_counts (foldl incr c ws) = sum_counts c + Z.of_nat (length ws).
Proof.
  revert c. induction ws as [|x ws IH]; intros c; cbn [foldl length].
  - lia.
  - rewrite IH. unfold incr. rewrite sum_counts_setitem. lia.
Qed.

Lemma keys_foldl_incr c ws w :
  w ∈ keys (foldl incr c ws) ↔ w ∈ keys c ∨ w ∈ ws.
Proof.
  revert c. induction ws as [|x ws IH]; intros c; cbn [foldl].
  - rewrite elem_of_nil. tauto.
  - rewrite IH. unfold incr. rewrite keys_setitem, elem_of_cons.
    destruct (decide (x ∈ keys c)) as [Hx|Hx].
    + split; [tauto |]. intros [?|[->|?]]; tauto.
    + rewrite elem_of_app, list_elem_of_singleton. tauto.
Qed.

Lemma is_dict_foldl_incr c ws : is_dict c → is_dict (foldl incr c ws).
Proof.
  revert c. induction ws as [|x ws IH]; intros c Hc; cbn [foldl]; [done |].
  apply IH. by apply is_dict_setitem.
Qed.

Lemma all_positive_foldl_incr c ws : all_positive c → all_positive (foldl incr c ws).
Proof.
  revert c. induction ws as [|x ws IH]; intros c Hc; cbn [foldl]; [done |].
  apply IH. apply all_positive_setitem; [done |].
  pose proof (all_positive_get c x Hc). lia.
Qed.

Section CountingFacts.

Variable uni_space : char → bool.
Variable uni_alnum : char → bool.

Local Abbreviation csentence := (count_sentence uni_space uni_alnum).
Local Abbreviation ctext := (count_text uni_space uni_alnum).
Local Abbreviation words := (findall uni_space uni_alnum cap_word).

Lemma is_dict_count_sentence c s : is_dict c → is_dict (csentence c s).
Proof. apply is_dict_foldl_incr. Qed.

Lemma all_positive_count_sentence c s : all_positive c → all_positive (csentence c s).
Proof. apply all_positive_foldl_incr. Qed.

Lemma is_dict_foldl_count_sentence c ss :
  is_dict c → is_dict (foldl csentence c ss).
Proof.
  revert c. induction ss as [|s ss IH]; intros c Hc; cbn [foldl]; [done |].
  apply IH. by apply is_dict_count_sentence.
Qed.

Lemma all_positive_foldl_count_sentence c ss :
  all_positive c → all_positive (foldl csentence c ss).
Proof.
  revert c. induction ss as [|s ss IH]; intros c Hc; cbn [foldl]; [done |].
  apply IH. by apply all_positive_count_sentence.
Qed.

Lemma is_dict_count_text t : is_dict (ctext t).
Proof. apply is_dict_foldl_count_sentence. apply NoDup_nil_2. Qed.

Lemma all_positive_count_text t : all_positive (ctext t).
Proof. apply all_positive_foldl_count_sentence. constructor. Qed.

Lemma get_foldl_count_sentence c ss w :
  get (foldl csentence c ss) w
  = get c w + occurrences w (flat_map (fun s => drop 1 (words s)) ss).
Proof.
  revert c. induction ss as [|s ss IH]; intros c; cbn [foldl flat_map].
  - rewrite occurrences_nil. lia.
  - rewrite IH, occurrences_app. unfold count_sentence.
    rewrite get_foldl_incr. lia.
Qed.

Lemma keys_foldl_count_sentence c ss w :
  w ∈ keys (foldl csentence c ss)
  ↔ w ∈ keys c ∨ ∃ s, s ∈ ss ∧ w ∈ drop 1 (words s).
Proof.
  revert c. induction ss as [|s ss IH]; intros c; cbn [foldl].
  - split; [tauto |]. intros [?|(s & Hs & _)]; [done |]. by apply elem_of_nil in Hs.
  - rewrite IH. unfold count_sentence. rewrite keys_foldl_incr. split.
    + intros [[?|?]|(s' & ? & ?)]; [tauto | right; exists s | right; exists s'];
        split; try done; [left | by right].
    + intros [?|(s' & Hs' & ?)]; [tauto |].
      apply elem_of_cons in Hs' as [->|?]; [tauto |]. right. by exists s'.
Qed.

End CountingFacts.

(** ** The global counter (claims C1 and C10) *)

(** C1.  The counter the merge loop returns holds, for every word, the sum
    of the counts of that word over the per-page counters, holds a word
    exactly when some page holds it, and stands for the same mapping in
    whatever order the pages complete. *)
Theorem merge_is_sum_in_any_order (total idx idx' : nat)
    (fs fs' : list (str * Py Counter)) :
  Forall (fun f => is_dict (page_counter f)) fs →
  fs ≡ₚ fs' →
  ∃ c c',
    (merge_loop total idx fs []).2 = Ret c
    ∧ (merge_loop total idx' fs' []).2 = Ret c'
    ∧ (∀ w, get c w = sum_at w (map page_counter fs))
    ∧ (∀ w, w ∈ keys c ↔ ∃ f, f ∈ fs ∧ w ∈ keys (page_counter f))
    ∧ (∀ w, get c' w = get c w)
    ∧ counts c = counts c'.
Proof.
  intros Hd Hp.
  assert (Hd' : Forall is_dict (map page_counter fs)) by by apply Forall_map.
  assert (Hp' : map page_counter fs ≡ₚ map page_counter fs') by by apply Permutation_map.
  exists (foldl update [] (map page_counter fs)),
         (foldl update [] (map page_counter fs')).
  split_and!; try apply merge_loop_result.
  - intros w. rewrite get_foldl_update by done. cbn [get]. lia.
  - intros w. rewrite keys_foldl_update, keys_nil, elem_of_nil. split.
    + intros [[]|(c & Hc & Hw)]. apply list_elem_of_fmap in Hc as (f & -> & Hf).
      by exists f.
    + intros (f & Hf & Hw). right. exists (page_counter f). split; [| done].
      apply list_elem_of_fmap. by exists f.
  - intros w. rewrite !get_foldl_update; [| done | by rewrite <- Hp'].
    by rewrite (sum_at_perm w _ _ Hp').
  - apply map_eq. intros w. rewrite !counts_lookup.
    assert (Hk : w ∈ keys (foldl update [] (map page_counter fs))
                 ↔ w ∈ keys (foldl update [] (map page_counter fs'))).
    { rewrite !keys_foldl_update. setoid_rewrite Hp'. done. }
    rewrite !get_foldl_update; [| by rewrite <- Hp' | done].
    rewrite (sum_at_perm w _ _ Hp').
    destruct (decide (w ∈ keys (foldl update [] (map page_counter fs)))) as [Hin|Hin].
    + rewrite decide_True; [done | by apply Hk].
    + rewrite decide_False; [done | by rewrite <- Hk].
Qed.

Lemma merge_is_sum_in_any_order_witness :
  ∃ c c',
    (merge_loop 3 1 sample_futures []).2 = Ret c
    ∧ (merge_loop 3 1 (reverse sample_futures) []).2 = Ret c'
    ∧ (∀ w, get c w = sum_at w (map page_counter sample_futures))
    ∧ (∀ w, w ∈ keys c ↔ ∃ f, f ∈ sample_futures ∧ w ∈ keys (page_counter f))
    ∧ (∀ w, get c' w = get c w)
    ∧ counts c = counts c'.
Proof.
  apply (merge_is_sum_in_any_order 3 1 1 sample_futures (reverse sample_futures)).
  - repeat (apply Forall_cons; split); [.. | apply Forall_nil];
      unfold is_dict; refine (bool_decide_unpack _ _); vm_compute; exact I.
  - symmetry. apply reverse_Permutation.
Defined.

Lemma all_positive_in c w : all_positive c → w ∈ keys c → 0 < get c w.
Proof.
  unfold all_positive. induction c as [|[k x] c IH]; intros Hc Hw.
  - by apply elem_of_nil in Hw.
  - inversion Hc; subst. cbn [get]. rewrite keys_cons in Hw.
    destruct (decide (k = w)) as [->|Hne]; [done |].
    apply elem_of_cons in Hw as [->|Hw]; [done | auto].
Qed.

Lemma page_counter_process_url us ua w url :
  page_counter (url, process_url us ua w url) = []
  ∨ ∃ text, page_counter (url, process_url us ua w url) = count_text us ua text.
Proof.
  unfold page_counter, process_url. cbn [snd].
  destruct (fetch w url) as [e|resp]; [by left |].
  destruct (BeautifulSoup w (resp_text resp)) as [soup|e]; [| by left].
  right. by eexists.
Qed.

Lemma all_positive_process_url us ua w url :
  all_positive (page_counter (url, process_url us ua w url)).
Proof.
  destruct (page_counter_process_url us ua w url) as [->|[t ->]].
  - constructor.
  - apply all_positive_count_text.
Qed.

Lemma is_dict_process_url us ua w url :
  is_dict (page_counter (url, process_url us ua w url)).
Proof.
  destruct (page_counter_process_url us ua w url) as [->|[t ->]].
  - apply NoDup_nil_2.
  - apply is_dict_count_text.
Qed.

(** C10.  The counter of every page holds only positive counts, and so does
    the global counter after each merge: the merge loop run over any
    initial part of the completed futures returns a counter whose entries,
    and whose lookups of the words it holds, are positive. *)
Theorem counts_stay_positive (uni_space uni_alnum : char → bool) (w : World)
    (all_urls : list str) (total idx : nat) (merged : list (str * Py Counter)) :
  (∀ fs, as_completed w fs ≡ₚ fs) →
  merged `prefix_of`
    as_completed w (map (fun url => (url, process_url uni_space uni_alnum w url)) all_urls) →
  (∀ url, all_positive (page_counter (url, process_url uni_space uni_alnum w url)))
  ∧ ∃ c, (merge_loop total idx merged []).2 = Ret c
         ∧ all_positive c
         ∧ ∀ word, word ∈ keys c → 0 < get c word.
Proof.
  intros Hperm [rest Hpre]. split; [intros url; apply all_positive_process_url |].
  exists (foldl update [] (map page_counter merged)).
  assert (Hpos : all_positive (foldl update [] (map page_counter merged))).
  { apply all_positive_foldl_update; [constructor |].
    apply Forall_map, Forall_forall. intros f Hf.
    assert (Hin : f ∈ map (fun url => (url, process_url uni_space uni_alnum w url)) all_urls).
    { rewrite <- (Hperm _), Hpre. apply elem_of_app. by left. }
    apply list_elem_of_fmap in Hin as (url & -> & _).
    apply all_positive_process_url. }
  split_and!; [apply merge_loop_result | done |].
  intros word. by apply all_positive_in.
Qed.

Lemma counts_stay_positive_witness :
  (∀ url, all_positive (page_counter
            (url, process_url no_unicode no_unicode
                    (sample_world urlset_in_namespace None (Some [])) url)))
  ∧ ∃ c, (merge_loop 2 1
            [(url_b, process_url no_unicode no_unicode
                       (sample_world urlset_in_namespace None (Some [])) url_b)] []).2
         = Ret c
         ∧ all_positive c
         ∧ ∀ word, word ∈ keys c → 0 < get c word.
Proof.
  apply (counts_stay_positive no_unicode no_unicode
           (sample_world urlset_in_namespace None (Some [])) [url_a; url_b] 2 1).
  - intros fs. apply reverse_Permutation.
  - exists [(url_a, process_url no_unicode no_unicode
                     (sample_world urlset_in_namespace None (Some [])) url_a)].
    reflexivity.
Defined.

(** ** The counting rule (claim C2) *)

(** C2.  In one sentence the first capitalised token is left out and every
    later one adds exactly 1 to the count of its word: a sentence with no
    token or one token leaves the counter as it is, one with N tokens adds
    N-1 counts in all.  Over a page, the count of a word is the number of
    its occurrences past the first token of each sentence, and the text
    [Hello World. Quick Brown Fox jumps.] gives World 1, Brown 1, Fox 1. *)
Theorem first_token_dropped_rest_counted (uni_space uni_alnum : char → bool)
    (counter : Counter) (sentence text : str) :
  let tokens := findall uni_space uni_alnum cap_word sentence in
  let counter' := count_sentence uni_space uni_alnum counter sentence in
  (∀ w, get counter' w = get counter w + occurrences w (drop 1 tokens))
  ∧ sum_counts counter' = sum_counts counter + Z.of_nat (length tokens - 1)
  ∧ match tokens with
    | [] | [_] => counter' = counter
    | _ :: rest => counter' = foldl incr counter rest
    end
  ∧ (∀ w, get (count_text uni_space uni_alnum text) w
          = occurrences w
              (flat_map (fun s => drop 1 (findall uni_space uni_alnum cap_word s))
                        (split uni_space uni_alnum sentence_sep text)))
  ∧ count_text uni_space uni_alnum hello_text
    = [(of_ascii "World", 1); (of_ascii "Brown", 1); (of_ascii "Fox", 1)].
Proof.
  cbv zeta. split_and!.
  - intros w. unfold count_sentence. apply get_foldl_incr.
  - unfold count_sentence. rewrite sum_counts_foldl_incr, length_drop. done.
  - unfold count_sentence.
    destruct (findall uni_space uni_alnum cap_word sentence) as [|t [|t' rest]]; done.
  - intros w. unfold count_text. rewrite get_foldl_count_sentence. cbn [get]. lia.
  - vm_compute. reflexivity.
Qed.

(** ** The capitalised words of a sentence (claim C3) *)

Lemma upper_set_ok us c : atom_ok us (ASet [SRange (ch "A") (ch "Z")]) c = is_upper c.
Proof. cbn [atom_ok existsb set_item_ok]. by rewrite orb_false_r. Qed.

Lemma alpha_set_ok us c :
  atom_ok us (ASet [SRange (ch "a") (ch "z"); SRange (ch "A") (ch "Z")]) c = is_alpha c.
Proof. cbn [atom_ok existsb set_item_ok]. by rewrite orb_false_r. Qed.

Lemma is_alpha_below_128 c : is_alpha c = true → (c <? 128)%N = true.
Proof.
  unfold is_alpha, is_lower, is_upper, in_range.
  change (ch "a") with 97%N. change (ch "z") with 122%N.
  change (ch "A") with 65%N. change (ch "Z") with 90%N.
  rewrite orb_true_iff, !andb_true_iff, !N.leb_le, N.ltb_lt. lia.
Qed.

Lemma is_alpha_is_word ua c : is_alpha c = true → is_word ua c = true.
Proof.
  intros H. unfold is_word, ascii_alnum.
  by rewrite (is_alpha_below_128 c H), H.
Qed.

Lemma is_upper_is_alpha c : is_upper c = true → is_alpha c = true.
Proof. unfold is_alpha. intros ->. apply orb_true_r. Qed.

Section Words.

Variable uni_space : char → bool.
Variable uni_alnum : char → bool.

Local Abbreviation wordc := (is_word uni_alnum).
Local Abbreviation runs := (word_runs uni_alnum).
Local Abbreviation mhere := (match_here uni_space uni_alnum).
Local Abbreviation alpha_set :=
  (ASet [SRange (ch "a") (ch "z"); SRange (ch "A") (ch "Z")]).

Lemma word_runs_not_nil s : ∃ p ps, runs s = p :: ps.
Proof.
  destruct s as [|c s]; cbn [word_runs]; [by eexists _, _ |].
  destruct (wordc c); [| by eexists _, _].
  destruct (runs s); by eexists _, _.
Qed.

Lemma word_runs_word c s :
  wordc c = true → runs (c :: s) = (c :: hd [] (runs s)) :: tl (runs s).
Proof.
  intros Hc. cbn [word_runs]. rewrite Hc.
  by destruct (word_runs_not_nil s) as (p & ps & ->).
Qed.

Lemma word_runs_other c s : wordc c = false → runs (c :: s) = [] :: runs s.
Proof. intros Hc. cbn [word_runs]. by rewrite Hc. Qed.

(** The first run is the longest prefix of word characters. *)
Lemma word_runs_hd_prefix s :
  take (length (hd [] (runs s))) s = hd [] (runs s)
  ∧ forallb wordc (hd [] (runs s)) = true.
Proof.
  induction s as [|c s [IH1 IH2]]; [done |].
  destruct (wordc c) eqn:Hc.
  - rewrite word_runs_word by done. cbn [hd length take forallb].
    by rewrite IH1, Hc, IH2.
  - by rewrite word_runs_other.
Qed.

(** After a word character, [[a-zA-Z]{n,}\b] matches the rest of the run
    the position is in, when that is made of letters and long enough, and
    nothing else: a shorter stretch does not end at a boundary. *)
Lemma match_letters_to_boundary s n p :
  wordc p = true →
  match_rep (atom_ok uni_space alpha_set) (mhere [Boundary]) n (Some p) s
  = if forallb is_alpha (hd [] (runs s)) && (n <=? length (hd [] (runs s)))%nat
    then Some (length (hd [] (runs s))) else None.
Proof.
  revert n p. induction s as [|c s IH]; intros n p Hp.
  - cbn [match_rep word_runs hd forallb length match_here word_before word_at].
    rewrite Hp. by destruct n.
  - cbn [match_rep]. rewrite alpha_set_ok.
    destruct (is_alpha c) eqn:Ha.
    + pose proof (is_alpha_is_word uni_alnum c Ha) as Hw.
      rewrite IH by done. rewrite word_runs_word by done.
      cbn [hd forallb length]. rewrite Ha. cbn [andb].
      destruct (forallb is_alpha (hd [] (runs s))) eqn:Hall; cbn [andb].
      * destruct n as [|n]; cbn [Nat.pred Nat.leb]; [done |].
        destruct (n <=? length (hd [] (runs s)))%nat; done.
      * destruct n as [|n]; [| done].
        cbn [match_here word_before word_at]. by rewrite Hp, Hw.
    + destruct (wordc c) eqn:Hw.
      * rewrite word_runs_word by done. cbn [hd forallb]. rewrite Ha. cbn [andb].
        destruct n; [| done].
        cbn [match_here word_before word_at]. by rewrite Hp, Hw.
      * rewrite word_runs_other by done. cbn [hd forallb length andb].
        destruct n; [| done].
        cbn [match_here word_before word_at]. by rewrite Hp, Hw.
Qed.

(** Where no word character precedes, the pattern matches exactly the run
    that starts there, when it qualifies. *)
Lemma match_cap_word_at_start prev s :
  word_before uni_alnum prev = false →
  mhere cap_word prev s
  = if qualifies (hd [] (runs s)) then Some (length (hd [] (runs s))) else None.
Proof.
  intros Hprev. unfold cap_word. cbn [match_here]. rewrite Hprev.
  destruct s as [|c s]; [done |].
  cbn [word_at xorb]. destruct (wordc c) eqn:Hw.
  - rewrite word_runs_word by done. cbn [hd qualifies length].
    rewrite upper_set_ok. destruct (is_upper c) eqn:Hu; [| done].
    rewrite match_letters_to_boundary by done. cbn [andb].
    destruct (forallb is_alpha (hd [] (runs s)) && _); done.
  - by rewrite word_runs_other.
Qed.

(** Inside a word, or right after one, the pattern does not match. *)
Lemma match_cap_word_after_word prev s :
  word_before uni_alnum prev = true → mhere cap_word prev s = None.
Proof.
  intros Hprev. unfold cap_word. cbn [match_here]. rewrite Hprev.
  destruct s as [|c s]; [done |].
  cbn [word_at]. destruct (wordc c) eqn:Hw; [done |]. cbn [xorb].
  rewrite upper_set_ok. destruct (is_upper c) eqn:Hu; [| done].
  apply is_upper_is_alpha, (is_alpha_is_word uni_alnum) in Hu. congruence.
Qed.

End Words.

Section Scan.

Variable uni_space : char → bool.
Variable uni_alnum : char → bool.

Local Abbreviation wordc := (is_word uni_alnum).
Local Abbreviation runs := (word_runs uni_alnum).
Local Abbreviation scan := (findall_from uni_space uni_alnum cap_word).

Lemma filter_qualifies_cons t l :
  filter (fun t => qualifies t = true) (t :: l)
  = if qualifies t then t :: filter (fun t => qualifies t = true) l
    else filter (fun t => qualifies t = true) l.
Proof.
  rewrite filter_cons. destruct (qualifies t); by destruct (decide _).
Qed.

(** The scan, from a position where a word may start and from a position
    inside a word or inside the last match: in both cases the run the
    position is in ends before anything else is found. *)
Lemma scan_cap_word s :
  (∀ prev, word_before uni_alnum prev = false →
     scan prev s O = filter (fun t => qualifies t = true) (runs s))
  ∧ (∀ prev k, word_before uni_alnum prev = true →
       (k ≤ length s)%nat → forallb wordc (take k s) = true →
       scan prev s k = filter (fun t => qualifies t = true) (tl (runs s))).
Proof.
  induction s as [|c s [IHa IHb]].
  - split.
    + intros prev Hprev. cbn [findall_from].
      by rewrite match_cap_word_at_start.
    + intros prev k Hprev Hk _. cbn [findall_from].
      rewrite match_cap_word_after_word by done. by destruct k.
  - split.
    + intros prev Hprev. cbn [findall_from].
      rewrite match_cap_word_at_start by done.
      destruct (wordc c) eqn:Hw.
      * rewrite word_runs_word by done. cbn [hd]. rewrite filter_qualifies_cons.
        destruct (word_runs_hd_prefix uni_alnum s) as [Htake Hall].
        destruct (qualifies (c :: hd [] (runs s))).
        -- cbn [length take Nat.pred]. rewrite Htake. f_equal.
           apply IHb; [done | | by rewrite Htake].
           rewrite <- Htake at 1. rewrite length_take. lia.
        -- apply (IHb (Some c) O); [done | lia | done].
      * rewrite word_runs_other by done. cbn [hd qualifies].
        rewrite filter_qualifies_cons. cbn [qualifies].
        by apply IHa.
    + intros prev k Hprev Hk Hall. cbn [findall_from].
      destruct k as [|k].
      * rewrite match_cap_word_after_word by done.
        destruct (wordc c) eqn:Hw.
        -- rewrite word_runs_word by done. cbn [tl].
           apply (IHb (Some c) O); [done | lia | done].
        -- rewrite word_runs_other by done. cbn [tl]. by apply IHa.
      * cbn [take forallb] in Hall. apply andb_true_iff in Hall as [Hw Hall].
        rewrite word_runs_word by done. cbn [tl].
        apply IHb; [done | cbn [length] in Hk; lia | done].
Qed.

Lemma findall_cap_word s :
  findall uni_space uni_alnum cap_word s = qualifying_tokens uni_alnum s.
Proof. by apply scan_cap_word. Qed.

Lemma word_runs_all_word s : Forall (fun r => forallb wordc r = true) (runs s).
Proof.
  induction s as [|c s IH]; [by repeat constructor |].
  destruct (wordc c) eqn:Hw.
  - rewrite word_runs_word by done.
    destruct (word_runs_not_nil uni_alnum s) as (p & ps & Hr).
    rewrite Hr in *. cbn [hd tl]. inversion IH; subst.
    constructor; [| done]. cbn [forallb]. by rewrite Hw.
  - rewrite word_runs_other by done. by constructor.
Qed.

Lemma word_runs_interleave s :
  ∃ seps, Forall (fun c => wordc c = false) seps
          ∧ length (runs s) = S (length seps)
          ∧ s = interleave (runs s) seps.
Proof.
  induction s as [|c s (seps & Hseps & Hlen & Hs)]; [by exists [] |].
  destruct (wordc c) eqn:Hw.
  - exists seps. rewrite word_runs_word by done.
    destruct (word_runs_not_nil uni_alnum s) as (p & ps & Hr).
    rewrite Hr in *. cbn [hd tl]. split_and!; [done | done |].
    rewrite Hs at 1. by destruct seps.
  - exists (c :: seps). rewrite word_runs_other by done.
    split_and!; [by constructor | cbn [length]; lia |].
    cbn [interleave app]. by rewrite <- Hs.
Qed.

Lemma qualifies_shape t :
  qualifies t = true →
  ∃ c t', t = c :: t' ∧ is_upper c = true
          ∧ Forall (fun x => is_alpha x = true) t' ∧ (3 ≤ length t)%nat.
Proof.
  destruct t as [|c t']; [done |]. cbn [qualifies].
  rewrite !andb_true_iff, Nat.leb_le. intros [[Hu Ha] Hl].
  exists c, t'. split_and!; [done | done | | cbn [length]; lia].
  apply Forall_forall. intros x Hx.
  rewrite forallb_forall in Ha. apply Ha. by apply list_elem_of_In.
Qed.

End Scan.

(** C3.  The tokens [re.findall] hands to the counting loop are, in the
    order they occur, the runs of word characters of the sentence that
    consist of an uppercase ASCII letter followed by two or more ASCII
    letters.  The runs are what lies between the non-word characters of the
    sentence, so each token has a word boundary on either side and cannot
    be extended; each has at least 3 characters, starts uppercase and is
    made of ASCII letters. *)
Theorem tokens_are_the_qualifying_word_runs (uni_space uni_alnum : char → bool)
    (sentence : str) :
  findall uni_space uni_alnum cap_word sentence
  = filter (fun t => qualifies t = true) (word_runs uni_alnum sentence)
  ∧ (∃ seps, Forall (fun c => is_word uni_alnum c = false) seps
             ∧ length (word_runs uni_alnum sentence) = S (length seps)
             ∧ sentence = interleave (word_runs uni_alnum sentence) seps)
  ∧ Forall (fun r => forallb (is_word uni_alnum) r = true)
           (word_runs uni_alnum sentence)
  ∧ Forall (fun t => ∃ c t', t = c :: t' ∧ is_upper c = true
                             ∧ Forall (fun x => is_alpha x = true) t'
                             ∧ (3 ≤ length t)%nat)
           (findall uni_space uni_alnum cap_word sentence).
Proof.
  split_and!.
  - apply findall_cap_word.
  - apply word_runs_interleave.
  - apply word_runs_all_word.
  - rewrite findall_cap_word. apply Forall_forall. intros t Ht.
    apply list_elem_of_filter in Ht as [Hq _]. by apply qualifies_shape.
Qed.

(** ** Where counted words come from (claim C9) *)

Lemma Node_induction (P : Node → Prop) :
  (∀ s, P (NString s)) →
  (∀ s, P (NOther s)) →
  (∀ name children, Forall P children → P (NTag name children)) →
  ∀ n, P n.
Proof.
  intros HS HO HT. fix IH 1. intros [s|s|name children].
  - apply HS.
  - apply HO.
  - apply HT. induction children as [|x children IHc]; constructor.
    + apply IH.
    + apply IHc.
Qed.

Lemma flat_map_ext_Forall {A B} (f g : A → list B) l :
  Forall (fun x => f x = g x) l → flat_map f l = flat_map g l.
Proof.
  induction 1 as [|x l Hx _ IH]; [done |]. cbn [flat_map]. by rewrite Hx, IH.
Qed.

Lemma flat_map_flat_map {A B C} (f : A → list B) (g : B → list C) l :
  flat_map g (flat_map f l) = flat_map (fun x => flat_map g (f x)) l.
Proof.
  induction l as [|x l IH]; [done |]. cbn [flat_map].
  by rewrite flat_map_app, IH.
Qed.

(** What is left after the extraction holds the visible strings. *)
Lemma strings_extract_node n :
  flat_map strings (extract_node [of_ascii "script"; of_ascii "style"] n)
  = visible_strings n.
Proof.
  induction n as [s|s|name children IH] using Node_induction.
  - cbn [extract_node flat_map strings visible_strings]. apply app_nil_r.
  - done.
  - cbn [extract_node visible_strings].
    destruct (decide (name = of_ascii "script")) as [->|Hs].
    { rewrite bool_decide_true by left. by rewrite bool_decide_true. }
    destruct (decide (name = of_ascii "style")) as [->|Ht].
    { rewrite bool_decide_true by (right; left).
      rewrite (bool_decide_true (_ = of_ascii "style")) by done.
      by rewrite orb_true_r. }
    rewrite bool_decide_false.
    2:{ intros Hin. apply elem_of_cons in Hin as [?|Hin]; [done |].
        apply elem_of_cons in Hin as [?|Hin]; [done |]. by apply elem_of_nil in Hin. }
    rewrite !bool_decide_false by done.
    cbn [orb flat_map strings]. rewrite app_nil_r, flat_map_flat_map.
    by apply flat_map_ext_Forall.
Qed.

Lemma strings_extract_all soup :
  flat_map strings (extract_all [of_ascii "script"; of_ascii "style"] soup)
  = flat_map visible_strings soup.
Proof.
  unfold extract_all. rewrite flat_map_flat_map.
  apply flat_map_ext_Forall, Forall_forall. intros n _. apply strings_extract_node.
Qed.

Lemma occurs_in_refl s : occurs_in s s.
Proof. exists [], []. by rewrite app_nil_r. Qed.

Lemma occurs_in_trans t s u : occurs_in t s → occurs_in s u → occurs_in t u.
Proof.
  intros (a & b & ->) (a' & b' & ->). exists (a' ++ a), (b ++ b').
  by rewrite <- !app_assoc.
Qed.

Lemma occurs_in_cons t c s : occurs_in t s → occurs_in t (c :: s).
Proof. intros (a & b & ->). by exists (c :: a), b. Qed.

Lemma occurs_in_nil s : occurs_in [] s.
Proof. by exists [], s. Qed.

(** A stretch without the separating character lies on one side of it. *)
Lemma occurs_in_app_sep t x c y :
  c ∉ t → occurs_in t (x ++ c :: y) → occurs_in t x ∨ occurs_in t y.
Proof.
  intros Hc (pre & post & Heq).
  apply app_eq_app in Heq as [l [[-> Heq]|[-> Heq]]].
  - symmetry in Heq. apply app_eq_app in Heq as [m [[-> ->]|[-> Heq]]].
    + left. by exists pre, m.
    + destruct m as [|d m].
      * left. exists pre, []. by rewrite !app_nil_r.
      * injection Heq as <- _. exfalso. apply Hc.
        apply elem_of_app. right. left.
  - destruct l as [|d l].
    + destruct t as [|d t]; [left; apply occurs_in_nil |].
      injection Heq as -> _. exfalso. apply Hc. left.
    + injection Heq as _ ->. right. by exists l, post.
Qed.

Lemma occurs_in_join c t l :
  t ≠ [] → c ∉ t → occurs_in t (join [c] l) → ∃ s, s ∈ l ∧ occurs_in t s.
Proof.
  intros Ht Hc. induction l as [|x l IH]; intros Hin.
  - destruct Hin as (pre & post & Heq). cbn [join] in Heq.
    symmetry in Heq. apply app_eq_nil in Heq as [_ Heq].
    apply app_eq_nil in Heq as [? _]. done.
  - destruct l as [|y l].
    + exists x. split; [left | done].
    + change (join [c] (x :: y :: l)) with (x ++ c :: join [c] (y :: l)) in Hin.
      apply occurs_in_app_sep in Hin as [Hin|Hin]; [| | done].
      * exists x. split; [left | done].
      * destruct (IH Hin) as (s & Hs & Hocc). exists s. split; [by right | done].
Qed.

Section Occurrences.

Variable uni_space : char → bool.
Variable uni_alnum : char → bool.

Lemma word_runs_occur s r : r ∈ word_runs uni_alnum s → occurs_in r s.
Proof.
  revert r. induction s as [|c s IH]; intros r Hr.
  - apply list_elem_of_singleton in Hr as ->. apply occurs_in_refl.
  - destruct (is_word uni_alnum c) eqn:Hw.
    + rewrite word_runs_word in Hr by done.
      destruct (word_runs_not_nil uni_alnum s) as (p & ps & Hp).
      rewrite Hp in *. cbn [hd tl] in Hr.
      apply elem_of_cons in Hr as [->|Hr].
      * destruct (word_runs_hd_prefix uni_alnum s) as [Htake _].
        rewrite Hp in Htake. cbn [hd] in Htake.
        exists [], (drop (length p) s). cbn [app].
        by rewrite <- Htake at 1; rewrite take_drop.
      * apply occurs_in_cons, IH. by right.
    + rewrite word_runs_other in Hr by done.
      apply elem_of_cons in Hr as [->|Hr]; [apply occurs_in_nil |].
      by apply occurs_in_cons, IH.
Qed.

(** From a position where nothing is left to skip, the first piece of a
    split starts right there. *)
Lemma split_from_first r prev s :
  ∃ p ps post, split_from uni_space uni_alnum r prev s O = p :: ps ∧ s = p ++ post.
Proof.
  revert prev. induction s as [|c s IH]; intros prev.
  - by exists [], [], [].
  - cbn [split_from].
    destruct (IH (Some c)) as (p & ps & post & Hs & ->).
    destruct (match_here uni_space uni_alnum r prev (c :: p ++ post)) as [[|l]|].
    + rewrite Hs. by exists (c :: p), ps, post.
    + by eexists [], _, _.
    + rewrite Hs. by exists (c :: p), ps, post.
Qed.

Lemma split_from_occur r prev s k p :
  p ∈ split_from uni_space uni_alnum r prev s k → occurs_in p s.
Proof.
  revert prev k p. induction s as [|c s IH]; intros prev k p Hp.
  - apply list_elem_of_singleton in Hp as ->. apply occurs_in_refl.
  - cbn [split_from] in Hp. destruct k as [|k].
    + destruct (split_from_first r (Some c) s) as (p0 & ps & post & Hs & Hpre).
      assert (Hrest : p ∈ (c :: p0) :: ps → occurs_in p (c :: s)).
      { intros Hin. apply elem_of_cons in Hin as [->|Hin].
        - exists [], post. cbn [app]. by rewrite Hpre.
        - apply occurs_in_cons, (IH (Some c) O). rewrite Hs. by right. }
      destruct (match_here uni_space uni_alnum r prev (c :: s)) as [[|l]|].
      * rewrite Hs in Hp. auto.
      * apply elem_of_cons in Hp as [->|Hp]; [apply occurs_in_nil |].
        by apply occurs_in_cons, (IH (Some c) l).
      * rewrite Hs in Hp. auto.
    + by apply occurs_in_cons, (IH (Some c) k).
Qed.

Lemma is_alpha_not_space t : forallb is_alpha t = true → ch " " ∉ t.
Proof.
  intros Ha Hin. rewrite forallb_forall in Ha.
  apply list_elem_of_In, Ha in Hin. done.
Qed.

(** A counted word lies inside one of the strings the text was joined from. *)
Lemma counted_words_occur strs word :
  word ∈ keys (count_text uni_space uni_alnum (join (of_ascii " ") strs)) →
  ∃ s, s ∈ strs ∧ occurs_in word s.
Proof.
  unfold count_text. rewrite keys_foldl_count_sentence, keys_nil.
  intros [Hin|(sentence & Hs & Hw)]; [by apply elem_of_nil in Hin |].
  assert (Hw' : word ∈ findall uni_space uni_alnum cap_word sentence).
  { destruct (findall _ _ _ sentence) as [|t ts]; [done |]. by right. }
  rewrite findall_cap_word in Hw'.
  apply list_elem_of_filter in Hw' as [Hq Hrun].
  apply (occurs_in_join (ch " ")).
  - by destruct word.
  - destruct word as [|c t]; [done |]. cbn [qualifies] in Hq.
    apply andb_true_iff in Hq as [Hq _]. apply andb_true_iff in Hq as [Hu Ha].
    apply is_alpha_not_space. cbn [forallb].
    by rewrite (is_upper_is_alpha c Hu), Ha.
  - eapply occurs_in_trans; [by apply word_runs_occur |].
    by eapply split_from_occur.
Qed.

End Occurrences.

(** C9.  For a page that is fetched and parsed, the text the words are
    counted in is made of the strings outside [script] and [style] elements
    only, and every word of the returned counter occurs in one of those
    strings: what stands only inside a script or a style is never a key. *)
Theorem script_and_style_are_not_counted (uni_space uni_alnum : char → bool)
    (w : World) (url : str) (resp : Response) (soup : Soup) :
  fetch w url = inr resp →
  BeautifulSoup w (resp_text resp) = Ret soup →
  get_text (of_ascii " ") (extract_all [of_ascii "script"; of_ascii "style"] soup)
  = join (of_ascii " ") (flat_map visible_strings soup)
  ∧ process_url uni_space uni_alnum w url
    = ([], Ret (count_text uni_space uni_alnum
                  (join (of_ascii " ") (flat_map visible_strings soup))))
  ∧ ∀ word, word ∈ keys (page_counter (url, process_url uni_space uni_alnum w url)) →
            ∃ s, s ∈ flat_map visible_strings soup ∧ occurs_in word s.
Proof.
  intros Hfetch Hsoup.
  assert (Htext : get_text (of_ascii " ")
                    (extract_all [of_ascii "script"; of_ascii "style"] soup)
                  = join (of_ascii " ") (flat_map visible_strings soup)).
  { unfold get_text. by rewrite strings_extract_all. }
  assert (Hrun : process_url uni_space uni_alnum w url
                 = ([], Ret (count_text uni_space uni_alnum
                               (join (of_ascii " ") (flat_map visible_strings soup))))).
  { unfold process_url. by rewrite Hfetch, Hsoup, Htext. }
  split_and!; [done | done |].
  intros word. rewrite Hrun. unfold page_counter. cbn [snd].
  apply counted_words_occur.
Qed.

Lemma script_and_style_are_not_counted_witness :
  get_text (of_ascii " ") (extract_all [of_ascii "script"; of_ascii "style"] hello_page)
  = join (of_ascii " ") (flat_map visible_strings hello_page)
  ∧ process_url no_unicode no_unicode
      (sample_world urlset_in_namespace None (Some [])) url_a
    = ([], Ret (count_text no_unicode no_unicode
                  (join (of_ascii " ") (flat_map visible_strings hello_page))))
  ∧ ∀ word,
      word ∈ keys (page_counter
                     (url_a, process_url no_unicode no_unicode
                               (sample_world urlset_in_namespace None (Some [])) url_a)) →
      ∃ s, s ∈ flat_map visible_strings hello_page ∧ occurs_in word s.
Proof.
  apply (script_and_style_are_not_counted no_unicode no_unicode
           (sample_world urlset_in_namespace None (Some [])) url_a
           (ok_response (of_ascii "page")) hello_page).
  - vm_compute. reflexivity.
  - vm_compute. reflexivity.
Defined.

(** ** Reading a sitemap (claims C4 and C5) *)


Section Sitemap.

Variable uni_space : char → bool.

Local Abbreviation space := (is_space uni_space).





End Sitemap.




(** The test for a text is made before the white space is cut: a [loc]
    holding only white space gives the empty string. *)
Example blank_loc_gives_empty_url :
  loc_urls no_unicode urlset_blank_loc = [url_a; []].
Proof. vm_compute. reflexivity. Qed.





(** ** Pages that fail (claim C6) *)




(** ** The report (claim C7) *)

Lemma insert_desc_perm x l : insert_desc x l ≡ₚ x :: l.
Proof.
  induction l as [|y l IH]; [done |]. cbn [insert_desc].
  destruct (y.2 <=? x.2); [done |]. rewrite IH. apply Permutation_swap.
Qed.

Lemma most_common_perm c : most_common c ≡ₚ c.
Proof.
  induction c as [|x c IH]; [done |]. unfold most_common in *. cbn [foldr].
  by rewrite insert_desc_perm, IH.
Qed.

Lemma insert_desc_sorted x l :
  StronglySorted (fun a b : str * Z => b.2 ≤ a.2) l →
  StronglySorted (fun a b : str * Z => b.2 ≤ a.2) (insert_desc x l).
Proof.
  induction 1 as [|y l Hl IH Hy]; cbn [insert_desc].
  - repeat constructor.
  - destruct (y.2 <=? x.2) eqn:Hle.
    + apply Z.leb_le in Hle. constructor; [by constructor |].
      constructor; [done |]. eapply Forall_impl; [exact Hy |].
      intros z Hz. cbn beta in *. lia.
    + apply Z.leb_gt in Hle. constructor; [done |].
      rewrite insert_desc_perm. constructor; [lia | done].
Qed.

Lemma most_common_sorted c :
  StronglySorted (fun a b : str * Z => b.2 ≤ a.2) (most_common c).
Proof.
  induction c as [|x c IH]; [constructor |].
  unfold most_common in *. cbn [foldr]. by apply insert_desc_sorted.
Qed.

(** The sort keeps entries of equal count in the order they had. *)
Lemma insert_desc_stable n x l :
  filter (fun e : str * Z => e.2 = n) (insert_desc x l)
  = filter (fun e : str * Z => e.2 = n) (x :: l).
Proof.
  induction l as [|y l IH]; [done |]. cbn [insert_desc].
  destruct (y.2 <=? x.2) eqn:Hle; [done |]. apply Z.leb_gt in Hle.
  rewrite !filter_cons, IH, !filter_cons.
  destruct (decide (x.2 = n)), (decide (y.2 = n)); try done. lia.
Qed.

Lemma most_common_stable n c :
  filter (fun e : str * Z => e.2 = n) (most_common c)
  = filter (fun e : str * Z => e.2 = n) c.
Proof.
  induction c as [|x c IH]; [done |].
  unfold most_common in *. cbn [foldr].
  by rewrite insert_desc_stable, !filter_cons, IH.
Qed.

(** C7.  The report is the concatenation, over the entries of the counter
    sorted by [most_common], of the word, a tab, the count in decimal and a
    newline.  The sorted entries are the entries of the counter, each once,
    in descending order of count, and entries of equal count keep the
    order they have in the counter.  For Apple 5, Banana 5, Cherry 1 the
    report is the three lines in that order, and in whatever order the
    three entries were inserted Cherry comes last. *)
Theorem report_sorted_by_count_stable (c : Counter) :
  report c
  = flat_map (fun e => e.1 ++ [ch "009"] ++ str_of_Z e.2 ++ [ch "010"]) (most_common c)
  ∧ most_common c ≡ₚ c
  ∧ StronglySorted (fun a b : str * Z => b.2 ≤ a.2) (most_common c)
  ∧ (∀ n, filter (fun e : str * Z => e.2 = n) (most_common c)
          = filter (fun e : str * Z => e.2 = n) c)
  ∧ report apple_banana_cherry = line "Apple" "5" ++ line "Banana" "5" ++ line "Cherry" "1"
  ∧ Forall (fun c' => report c' = line "Apple" "5" ++ line "Banana" "5" ++ line "Cherry" "1"
                      ∨ report c' = line "Banana" "5" ++ line "Apple" "5" ++ line "Cherry" "1")
           (permutations apple_banana_cherry).
Proof.
  split_and!.
  - unfold report. induction (most_common c) as [|e l IH]; [done |].
    cbn [map concat flat_map]. by rewrite IH.
  - apply most_common_perm.
  - apply most_common_sorted.
  - intros n. apply most_common_stable.
  - vm_compute. reflexivity.
  - refine (bool_decide_unpack _ _). vm_compute. exact I.
Qed.

(** ** How the process ends (claim C8) *)

Lemma collect_urls_returns us w sms all_urls :
  reads_return us w sms →
  ∃ l urls, collect_urls us w sms all_urls = (l, Ret urls).
Proof.
  revert all_urls. induction sms as [|sm sms IH]; intros all_urls Hreads.
  - by eexists _, _.
  - cbn [collect_urls].
    destruct (Hreads sm) as [urls Hsm]; [left |].
    destruct (get_urls_from_sitemap us w sm) as [l r]. cbn [snd] in Hsm. subst r.
    destruct (IH (all_urls ++ urls)) as (l' & urls' & Hrest).
    { intros sm' Hsm'. apply Hreads. by right. }
    unfold mbind, Py_bind, bind. rewrite Hrest. by eexists _, _.
Qed.

Lemma merge_loop_returns total idx fs tc :
  ∃ l c, merge_loop total idx fs tc = (l, Ret c).
Proof.
  pose proof (merge_loop_result total idx fs tc) as H.
  destruct (merge_loop total idx fs tc) as [l r]. cbn [snd] in H. subst r.
  by eexists _, _.
Qed.

(** Once the sitemaps are read, no failure of a page stops the crawl. *)
Lemma crawl_returns us ua w :
  reads_return us w sitemap_urls → ∃ l c, crawl us ua w = (l, Ret c).
Proof.
  intros Hreads. unfold crawl.
  destruct (collect_urls_returns us w sitemap_urls [] Hreads) as (l & urls & ->).
  unfold mbind, Py_bind, bind, logging.
  match goal with
  | |- context [merge_loop ?t ?i ?fs ?tc] =>
      destruct (merge_loop_returns t i fs tc) as (l' & c & ->)
  end.
  by eexists _, _.
Qed.

Ltac sample_reads_return :=
  let sm := fresh "sm" in
  let Hsm := fresh "Hsm" in
  intros sm Hsm;
  repeat (apply elem_of_cons in Hsm as [->|Hsm]; [eexists; vm_compute; reflexivity |]);
  by apply elem_of_nil in Hsm.

(** C8.  When reading the sitemaps returns and the prompt that ends the
    program reads a line, the exit status is other than 0 exactly when
    writing the report fails with an I/O error; the program then logs that
    error, as its last line, and exits with status 1.  No failure of a
    page, and no sitemap that cannot be fetched or that the parser refuses
    with [ET.ParseError], comes into it: the crawl returns its counter. *)
Theorem only_a_failed_write_exits_nonzero (uni_space uni_alnum : char → bool)
    (w : World) :
  reads_return uni_space w sitemap_urls →
  is_Some (input w) →
  ∃ l total_counter,
    crawl uni_space uni_alnum w = (l, Ret total_counter)
    ∧ (exit_status (exit (main uni_space uni_alnum w)) ≠ 0
       ↔ is_Some (write_file w output_file (report total_counter)))
    ∧ match write_file w output_file (report total_counter) with
      | Some e =>
          exit (main uni_space uni_alnum w) = SysExit 1
          ∧ log (main uni_space uni_alnum w) = l ++ [ErrWrite output_file (IOError e)]
          ∧ level (ErrWrite output_file (IOError e)) = ERROR
      | None =>
          exit (main uni_space uni_alnum w) = Normal
          ∧ log (main uni_space uni_alnum w) = l ++ [InfoSaved output_file]
          ∧ written (main uni_space uni_alnum w) = Some (report total_counter)
      end.
Proof.
  intros Hreads [answer Hin].
  destruct (crawl_returns uni_space uni_alnum w Hreads) as (l & c & Hcrawl).
  exists l, c. unfold main. rewrite Hcrawl, Hin.
  destruct (write_file w output_file (report c)) as [e|];
    cbn [exit log written exit_status].
  - split_and!; try done. all: split; [by eexists | done].
  - split_and!; try done. all: split; [done | by intros [? ?]].
Qed.

Lemma only_a_failed_write_exits_nonzero_witness :
  ∃ l total_counter,
    crawl no_unicode no_unicode
      (sample_world urlset_in_namespace (Some (of_ascii "read-only")) (Some []))
    = (l, Ret total_counter)
    ∧ (exit_status (exit (main no_unicode no_unicode
                            (sample_world urlset_in_namespace
                               (Some (of_ascii "read-only")) (Some [])))) ≠ 0
       ↔ is_Some (write_file
                    (sample_world urlset_in_namespace (Some (of_ascii "read-only"))
                       (Some []))
                    output_file (report total_counter)))
    ∧ match write_file
              (sample_world urlset_in_namespace (Some (of_ascii "read-only")) (Some []))
              output_file (report total_counter) with
      | Some e =>
          exit (main no_unicode no_unicode
                  (sample_world urlset_in_namespace (Some (of_ascii "read-only"))
                     (Some [])))
          = SysExit 1
          ∧ log (main no_unicode no_unicode
                   (sample_world urlset_in_namespace (Some (of_ascii "read-only"))
                      (Some [])))
            = l ++ [ErrWrite output_file (IOError e)]
          ∧ level (ErrWrite output_file (IOError e)) = ERROR
      | None =>
          exit (main no_unicode no_unicode
                  (sample_world urlset_in_namespace (Some (of_ascii "read-only"))
                     (Some [])))
          = Normal
          ∧ log (main no_unicode no_unicode
                   (sample_world urlset_in_namespace (Some (of_ascii "read-only"))
                      (Some [])))
            = l ++ [InfoSaved output_file]
          ∧ written (main no_unicode no_unicode
                       (sample_world urlset_in_namespace (Some (of_ascii "read-only"))
                          (Some [])))
            = Some (report total_counter)
      end.
Proof.
  apply (only_a_failed_write_exits_nonzero no_unicode no_unicode
           (sample_world urlset_in_namespace (Some (of_ascii "read-only")) (Some []))).
  - sample_reads_return.
  - by eexists.
Defined.

(** Two runs that end with status 1 although no write failed.  At the end
    of the input the prompt raises [EOFError], which nothing catches: the
    report is written and an error was logged for the sitemap that could
    not be fetched.  And when the parser raises a [ValueError] on the body
    of a sitemap, the exception leaves [get_urls_from_sitemap] and the
    loop over the sitemaps, which has no [try]: the program ends before
    any page is fetched, with the prompt answerable and nothing written. *)
Lemma exits_nonzero_without_a_failed_write :
  (exit (main no_unicode no_unicode (sample_world urlset_in_namespace None None))
   = Uncaught EOFError
   ∧ exit_status
       (exit (main no_unicode no_unicode (sample_world urlset_in_namespace None None)))
     = 1
   ∧ (∃ m, m ∈ log (main no_unicode no_unicode
                      (sample_world urlset_in_namespace None None))
           ∧ level m = ERROR)
   ∧ (∀ text, write_file (sample_world urlset_in_namespace None None) output_file text
              = None)
   ∧ written (main no_unicode no_unicode (sample_world urlset_in_namespace None None))
     = Some (line "World" "1" ++ line "Brown" "1" ++ line "Fox" "1"))
  ∧ (main no_unicode no_unicode
       (with_undecodable_sitemap (sample_world urlset_in_namespace None (Some [])))
     = {| exit := Uncaught multi_byte_error;
          log := [InfoFound 2 sitemap_1];
          written := None |}
     ∧ exit_status
         (exit (main no_unicode no_unicode
                  (with_undecodable_sitemap
                     (sample_world urlset_in_namespace None (Some [])))))
       = 1
     ∧ is_Some (input (with_undecodable_sitemap
                         (sample_world urlset_in_namespace None (Some []))))
     ∧ (∀ text, write_file
                  (with_undecodable_sitemap
                     (sample_world urlset_in_namespace None (Some [])))
                  output_file text
                = None)).
Proof.
  split; split_and!.
  - vm_compute. reflexivity.
  - vm_compute. reflexivity.
  - exists (ErrSitemapDownload sitemap_2 (RequestException (of_ascii "unreachable"))).
    split; [| done]. apply list_elem_of_In. vm_compute. right. left. reflexivity.
  - done.
  - vm_compute. reflexivity.
  - vm_compute. reflexivity.
  - vm_compute. reflexivity.
  - by eexists.
  - done.
Qed.

(** ** The crawl as a whole *)

(** When the sitemaps are read, whatever the order in which the pages
    complete, the crawl returns the same mapping. *)
Lemma crawl_counts_in_any_completion_order us ua w order order' :
  reads_return us w sitemap_urls →
  (∀ fs, order fs ≡ₚ fs) → (∀ fs, order' fs ≡ₚ fs) →
  ∃ l l' c c',
    crawl us ua (with_completion w order) = (l, Ret c)
    ∧ crawl us ua (with_completion w order') = (l', Ret c')
    ∧ counts c = counts c'.
Proof.
  intros Hreads Ho Ho'. unfold crawl.
  change (collect_urls us (with_completion w order) sitemap_urls [])
    with (collect_urls us w sitemap_urls []).
  change (collect_urls us (with_completion w order') sitemap_urls [])
    with (collect_urls us w sitemap_urls []).
  destruct (collect_urls_returns us w sitemap_urls [] Hreads) as (l0 & urls & ->).
  unfold mbind, Py_bind, bind, logging.
  change (as_completed (with_completion w order)) with order.
  change (as_completed (with_completion w order')) with order'.
  change (process_url us ua (with_completion w order))
    with (process_url us ua w).
  change (process_url us ua (with_completion w order'))
    with (process_url us ua w).
  set (fs := map (fun url => (url, process_url us ua w url)) urls).
  pose proof (merge_loop_result (length urls) 1 (order fs) []) as H.
  pose proof (merge_loop_result (length urls) 1 (order' fs) []) as H'.
  destruct (merge_loop (length urls) 1 (order fs) []) as [l r].
  destruct (merge_loop (length urls) 1 (order' fs) []) as [l' r'].
  cbn [snd] in H, H'. subst r r'. eexists _, _, _, _. split_and!; [done | done |].
  assert (Hp : map page_counter (order fs) ≡ₚ map page_counter (order' fs)).
  { apply Permutation_map. by rewrite Ho, Ho'. }
  assert (Hd : Forall is_dict (map page_counter (order fs))).
  { apply Forall_map, Forall_forall. intros f Hf. rewrite Ho in Hf.
    apply list_elem_of_fmap in Hf as (url & -> & _). apply is_dict_process_url. }
  apply map_eq. intros x. rewrite !counts_lookup.
  rewrite !get_foldl_update; [| by rewrite <- Hp | done].
  rewrite (sum_at_perm x _ _ Hp).
  assert (Hk : x ∈ keys (foldl update [] (map page_counter (order fs)))
               ↔ x ∈ keys (foldl update [] (map page_counter (order' fs)))).
  { rewrite !keys_foldl_update. by setoid_rewrite Hp. }
  destruct (decide (x ∈ keys (foldl update [] (map page_counter (order fs))))).
  - rewrite decide_True; [done | by apply Hk].
  - rewrite decide_False; [done | by rewrite <- Hk].
Qed.

(** The sample page, counted: nothing of its script, style or comment. *)
Example hello_page_counted :
  process_url no_unicode no_unicode
    (sample_world urlset_in_namespace None (Some [])) url_a
  = ([], Ret [(of_ascii "World", 1); (of_ascii "Brown", 1); (of_ascii "Fox", 1)]).
Proof. vm_compute. reflexivity. Qed.

(** Ties in the report follow the order of insertion, which follows the
    order of completion: two counters that stand for the same mapping may
    be written with their ties the other way round. *)
Example ties_follow_insertion_order :
  counts [(of_ascii "Apple", 5); (of_ascii "Banana", 5)]
  = counts [(of_ascii "Banana", 5); (of_ascii "Apple", 5)]
  ∧ report [(of_ascii "Apple", 5); (of_ascii "Banana", 5)]
    = line "Apple" "5" ++ line "Banana" "5"
  ∧ report [(of_ascii "Banana", 5); (of_ascii "Apple", 5)]
    = line "Banana" "5" ++ line "Apple" "5".
Proof.
  split_and!; vm_compute; reflexivity.
Qed.

(** * More of the program *)

(** ** The URLs of the sitemaps *)

Lemma elem_of_flat_map {A B} (f : A → list B) (l : list A) (x : B) :
  x ∈ flat_map f l ↔ ∃ y, y ∈ l ∧ x ∈ f y.
Proof.
  rewrite list_elem_of_In, in_flat_map. split.
  - intros (y & Hy & Hx). exists y. by rewrite !list_elem_of_In.
  - intros (y & Hy & Hx). exists y. by rewrite <- !list_elem_of_In.
Qed.

Lemma collect_urls_eq us w sms acc :
  reads_return us w sms →
  collect_urls us w sms acc
  = (flat_map (fun sm => (get_urls_from_sitemap us w sm).1) sms,
     Ret (acc ++ flat_map (fun sm => returned (get_urls_from_sitemap us w sm)) sms)).
Proof.
  revert acc. induction sms as [|sm sms IH]; intros acc Hreads.
  - cbn [collect_urls flat_map]. by rewrite app_nil_r.
  - cbn [collect_urls flat_map].
    destruct (Hreads sm) as [urls Hsm]; [left |].
    unfold returned. destruct (get_urls_from_sitemap us w sm) as [l r].
    cbn [snd] in Hsm. subst r. cbn [fst snd].
    unfold mbind, Py_bind, bind. rewrite IH; [by rewrite app_assoc |].
    intros sm' Hsm'. apply Hreads. by right.
Qed.

Lemma get_urls_from_sitemap_one_line us w sm urls :
  (get_urls_from_sitemap us w sm).2 = Ret urls →
  length (get_urls_from_sitemap us w sm).1 = 1%nat.
Proof.
  unfold get_urls_from_sitemap. destruct (fetch w sm) as [e|resp]; [done |].
  by destruct (ET_fromstring w (content resp)) as [root|[]].
Qed.

(** X1.  When reading each sitemap returns, the URLs the crawl works on
    are those of the sitemaps, sitemap after sitemap in the order given,
    after the ones already collected; a sitemap that could not be fetched
    or parsed adds no URL and the ones after it are still read.  Nothing
    is removed: a URL listed twice is there twice.  Each sitemap leaves
    exactly one line in the log. *)
Theorem collect_urls_concatenates (uni_space : char → bool) (w : World)
    (sms : list str) (acc : list str) :
  reads_return uni_space w sms →
  (collect_urls uni_space w sms acc).2
  = Ret (acc ++ flat_map (fun sm => returned (get_urls_from_sitemap uni_space w sm)) sms)
  ∧ (collect_urls uni_space w sms acc).1
    = flat_map (fun sm => (get_urls_from_sitemap uni_space w sm).1) sms
  ∧ length (collect_urls uni_space w sms acc).1 = length sms
  ∧ (∀ url, url ∈ returned (collect_urls uni_space w sms acc)
            ↔ url ∈ acc
              ∨ ∃ sm, sm ∈ sms ∧ url ∈ returned (get_urls_from_sitemap uni_space w sm)).
Proof.
  intros Hreads. rewrite collect_urls_eq by done. cbn [fst snd].
  split_and!; [done | done | |].
  - induction sms as [|sm sms IH]; [done |]. cbn [flat_map length].
    destruct (Hreads sm) as [urls Hsm]; [left |].
    rewrite length_app, (get_urls_from_sitemap_one_line _ _ _ _ Hsm), IH; [done |].
    intros sm' Hsm'. apply Hreads. by right.
  - intros url. unfold returned at 1. cbn [snd].
    by rewrite elem_of_app, elem_of_flat_map.
Qed.

Lemma collect_urls_concatenates_witness :
  (collect_urls no_unicode (sample_world urlset_in_namespace None (Some []))
     sitemap_urls [url_c]).2
  = Ret ([url_c]
         ++ flat_map (fun sm =>
                        returned (get_urls_from_sitemap no_unicode
                                    (sample_world urlset_in_namespace None (Some []))
                                    sm))
                     sitemap_urls)
  ∧ (collect_urls no_unicode (sample_world urlset_in_namespace None (Some []))
       sitemap_urls [url_c]).1
    = flat_map (fun sm =>
                  (get_urls_from_sitemap no_unicode
                     (sample_world urlset_in_namespace None (Some [])) sm).1)
               sitemap_urls
  ∧ length (collect_urls no_unicode (sample_world urlset_in_namespace None (Some []))
              sitemap_urls [url_c]).1
    = length sitemap_urls
  ∧ (∀ url,
       url ∈ returned (collect_urls no_unicode
                         (sample_world urlset_in_namespace None (Some []))
                         sitemap_urls [url_c])
       ↔ url ∈ [url_c]
         ∨ ∃ sm, sm ∈ sitemap_urls
                 ∧ url ∈ returned (get_urls_from_sitemap no_unicode
                                     (sample_world urlset_in_namespace None (Some []))
                                     sm)).
Proof.
  apply (collect_urls_concatenates no_unicode
           (sample_world urlset_in_namespace None (Some [])) sitemap_urls [url_c]).
  sample_reads_return.
Defined.

Lemma merge_loop_cons total idx url wl r fs tc :
  merge_loop total idx ((url, (wl, r)) :: fs) tc
  = (wl ++ match r with Raise e => [ErrProcessing url e] | Ret _ => [] end
        ++ [InfoProgress idx total url]
        ++ (merge_loop total (S idx) fs (update tc (page_counter (url, (wl, r))))).1,
     (merge_loop total (S idx) fs (update tc (page_counter (url, (wl, r))))).2).
Proof.
  cbn [merge_loop]. unfold mbind, Py_bind, bind, logging, mret, Py_ret, ret.
  unfold page_counter. cbn [snd].
  destruct r as [c|e]; [| rewrite update_nil];
    match goal with
    | |- context [merge_loop ?t ?i ?l ?c] => destruct (merge_loop t i l c)
    end; cbn [fst snd]; by rewrite ?app_nil_r, <- ?app_assoc.
Qed.

Lemma crawl_unfold us ua w :
  reads_return us w sitemap_urls →
  crawl us ua w
  = (flat_map (fun sm => (get_urls_from_sitemap us w sm).1) sitemap_urls
       ++ [InfoStart (length (all_urls us w))]
       ++ (merge_loop (length (all_urls us w)) 1 (as_completed w (futures us ua w)) []).1,
     (merge_loop (length (all_urls us w)) 1 (as_completed w (futures us ua w)) []).2).
Proof.
  intros Hreads. unfold crawl. rewrite collect_urls_eq by done. cbn [app].
  unfold mbind, Py_bind, bind, logging. fold (all_urls us w). fold (futures us ua w).
  by destruct (merge_loop _ 1 _ []) as [l r].
Qed.

(** ** The crawl, end to end *)

Lemma completed_futures us ua w f :
  (∀ fs, as_completed w fs ≡ₚ fs) →
  f ∈ as_completed w (futures us ua w) →
  ∃ url, url ∈ all_urls us w ∧ f = (url, process_url us ua w url).
Proof.
  intros Hperm Hf. rewrite Hperm in Hf. unfold futures in Hf.
  apply list_elem_of_fmap in Hf as (url & -> & Hurl). by exists url.
Qed.

Lemma page_counters_of_futures us ua w :
  map page_counter (futures us ua w)
  = map (fun url => page_counter (url, process_url us ua w url)) (all_urls us w).
Proof. unfold futures. by rewrite map_map. Qed.

Lemma is_dict_futures us ua w :
  Forall is_dict (map page_counter (futures us ua w)).
Proof.
  rewrite page_counters_of_futures. apply Forall_map, Forall_forall.
  intros url _. apply is_dict_process_url.
Qed.

(** X2.  When reading the sitemaps returns and the pool hands back the
    futures it was given, in any order, the crawl returns a counter in which every word has the sum of its
    counts over the pages of all sitemaps, a page as often as it is
    listed; the words it holds are those some page holds. *)
Theorem crawl_sums_all_listed_pages (uni_space uni_alnum : char → bool) (w : World) :
  reads_return uni_space w sitemap_urls →
  (∀ fs, as_completed w fs ≡ₚ fs) →
  ∃ l c,
    crawl uni_space uni_alnum w = (l, Ret c)
    ∧ (∀ word,
         get c word
         = sum_at word
             (map (fun url => page_counter (url, process_url uni_space uni_alnum w url))
                  (all_urls uni_space w)))
    ∧ (∀ word,
         word ∈ keys c
         ↔ ∃ url, url ∈ all_urls uni_space w
                  ∧ word ∈ keys (page_counter
                                   (url, process_url uni_space uni_alnum w url))).
Proof.
  intros Hreads Hperm. rewrite crawl_unfold, merge_loop_result by done.
  eexists _, _. split; [reflexivity |].
  assert (Hp : map page_counter (as_completed w (futures uni_space uni_alnum w))
               ≡ₚ map page_counter (futures uni_space uni_alnum w)).
  { apply Permutation_map, Hperm. }
  pose proof (is_dict_futures uni_space uni_alnum w) as Hd.
  split.
  - intros word. rewrite get_foldl_update by by rewrite Hp.
    rewrite (sum_at_perm word _ _ Hp), page_counters_of_futures. cbn [get]. lia.
  - intros word. rewrite keys_foldl_update, keys_nil, elem_of_nil.
    setoid_rewrite Hp. rewrite page_counters_of_futures. split.
    + intros [[]|(c & Hc & Hw)].
      apply list_elem_of_fmap in Hc as (url & -> & Hurl). by exists url.
    + intros (url & Hurl & Hw). right. eexists. split; [| exact Hw].
      apply list_elem_of_fmap. by exists url.
Qed.

Lemma crawl_sums_all_listed_pages_witness :
  ∃ l c,
    crawl no_unicode no_unicode (sample_world urlset_in_namespace None (Some []))
    = (l, Ret c)
    ∧ (∀ word,
         get c word
         = sum_at word
             (map (fun url =>
                     page_counter
                       (url, process_url no_unicode no_unicode
                               (sample_world urlset_in_namespace None (Some [])) url))
                  (all_urls no_unicode
                     (sample_world urlset_in_namespace None (Some [])))))
    ∧ (∀ word,
         word ∈ keys c
         ↔ ∃ url, url ∈ all_urls no_unicode
                          (sample_world urlset_in_namespace None (Some []))
                  ∧ word ∈ keys (page_counter
                                   (url, process_url no_unicode no_unicode
                                           (sample_world urlset_in_namespace None
                                              (Some [])) url))).
Proof.
  apply (crawl_sums_all_listed_pages no_unicode no_unicode
           (sample_world urlset_in_namespace None (Some []))).
  - sample_reads_return.
  - intros fs. apply reverse_Permutation.
Defined.

Lemma process_url_log us ua w url :
  (process_url us ua w url).1 = []
  ∨ ∃ e, (process_url us ua w url).1 = [WarnDownload url (RequestException e)].
Proof.
  unfold process_url. destruct (fetch w url) as [e|resp]; [right; by exists e |].
  left. by destruct (BeautifulSoup w (resp_text resp)).
Qed.

Lemma get_urls_from_sitemap_no_progress us w sm :
  flat_map progress (get_urls_from_sitemap us w sm).1 = [].
Proof.
  unfold get_urls_from_sitemap. destruct (fetch w sm) as [e|resp]; [done |].
  by destruct (ET_fromstring w (content resp)) as [root|[]].
Qed.

Lemma progress_of_merge_loop total idx fs tc :
  Forall (fun f : str * Py Counter => flat_map progress f.2.1 = []) fs →
  flat_map progress (merge_loop total idx fs tc).1
  = imap (fun i f => ((idx + i)%nat, total, f.1)) fs.
Proof.
  intros Hfs. revert idx tc.
  induction Hfs as [|[url [wl r]] fs Hf _ IH]; intros idx tc; [done |].
  rewrite merge_loop_cons. cbn [fst snd imap] in *.
  rewrite !flat_map_app, Hf, IH. cbn [app fst].
  replace (flat_map progress match r with Ret _ => [] | Raise e => [ErrProcessing url e] end)
    with (@nil (nat * nat * str)) by by destruct r.
  cbn [flat_map progress app]. rewrite Nat.add_0_r. f_equal.
  apply imap_ext. intros i f _. cbn. do 2 f_equal. lia.
Qed.

(** X3.  When reading the sitemaps returns and the pool hands back the
    futures it was given, the crawl logs one progress line per page, in the order of completion: the i-th
    carries the index i, counted from 1, the number of URLs found as the
    total, and the URL of the page completed; there are as many as URLs,
    so the last one reads total of total. *)
Theorem progress_lines_count_up (uni_space uni_alnum : char → bool) (w : World) :
  reads_return uni_space w sitemap_urls →
  (∀ fs, as_completed w fs ≡ₚ fs) →
  flat_map progress (crawl uni_space uni_alnum w).1
  = imap (fun i f => (S i, length (all_urls uni_space w), f.1))
         (as_completed w (futures uni_space uni_alnum w))
  ∧ length (as_completed w (futures uni_space uni_alnum w))
    = length (all_urls uni_space w).
Proof.
  intros Hreads Hperm. split.
  - rewrite crawl_unfold by done. cbn [fst]. rewrite !flat_map_app.
    assert (flat_map progress
              (flat_map (fun sm => (get_urls_from_sitemap uni_space w sm).1)
                        sitemap_urls) = []) as ->.
    { clear Hreads. rewrite flat_map_flat_map.
      induction sitemap_urls as [|sm sms IH]; [done |].
      cbn [flat_map]. by rewrite get_urls_from_sitemap_no_progress, IH. }
    cbn [flat_map progress app]. apply progress_of_merge_loop.
    apply Forall_forall. intros f Hf.
    apply (completed_futures _ _ _ _ Hperm) in Hf as (url & _ & ->). cbn [snd].
    by destruct (process_url_log uni_space uni_alnum w url) as [->|[e ->]].
  - rewrite Hperm. unfold futures. apply length_map.
Qed.

Lemma progress_lines_count_up_witness :
  flat_map progress
    (crawl no_unicode no_unicode (sample_world urlset_in_namespace None (Some []))).1
  = imap (fun i f =>
            (S i,
             length (all_urls no_unicode
                       (sample_world urlset_in_namespace None (Some []))),
             f.1))
         (as_completed (sample_world urlset_in_namespace None (Some []))
            (futures no_unicode no_unicode
               (sample_world urlset_in_namespace None (Some []))))
  ∧ length (as_completed (sample_world urlset_in_namespace None (Some []))
              (futures no_unicode no_unicode
                 (sample_world urlset_in_namespace None (Some []))))
    = length (all_urls no_unicode (sample_world urlset_in_namespace None (Some []))).
Proof.
  apply (progress_lines_count_up no_unicode no_unicode
           (sample_world urlset_in_namespace None (Some []))).
  - sample_reads_return.
  - intros fs. apply reverse_Permutation.
Defined.

Lemma merge_loop_logs total idx fs tc f :
  f ∈ fs →
  (∀ m, m ∈ f.2.1 → m ∈ (merge_loop total idx fs tc).1)
  ∧ (∀ e, f.2.2 = Raise e → ErrProcessing f.1 e ∈ (merge_loop total idx fs tc).1).
Proof.
  revert idx tc. induction fs as [|[url [wl r]] fs IH]; intros idx tc Hf.
  - by apply elem_of_nil in Hf.
  - rewrite merge_loop_cons. cbn [fst].
    apply elem_of_cons in Hf as [->|Hf].
    + cbn [fst snd]. split.
      * intros m Hm. apply elem_of_app. by left.
      * intros e ->. apply elem_of_app. right. left.
    + destruct (IH (S idx) (update tc (page_counter (url, (wl, r)))) Hf) as [H1 H2].
      split.
      * intros m Hm. rewrite !elem_of_app. right. right. right. by apply H1.
      * intros e He. rewrite !elem_of_app. right. right. right. by apply H2.
Qed.

(** X4.  When reading the sitemaps returns and the pool hands back the
    futures it was given, a page of the list whose download fails leaves a warning with its
    URL in the log of the crawl, and one whose parsing raises leaves an
    error with its URL and the exception; in both cases the crawl goes on
    and returns its counter. *)
Theorem page_failures_are_logged (uni_space uni_alnum : char → bool) (w : World)
    (url : str) :
  reads_return uni_space w sitemap_urls →
  (∀ fs, as_completed w fs ≡ₚ fs) →
  url ∈ all_urls uni_space w →
  match fetch w url with
  | inl e => WarnDownload url (RequestException e) ∈ (crawl uni_space uni_alnum w).1
  | inr resp =>
      match BeautifulSoup w (resp_text resp) with
      | Raise e => ErrProcessing url e ∈ (crawl uni_space uni_alnum w).1
      | Ret _ => True
      end
  end
  ∧ ∃ c, (crawl uni_space uni_alnum w).2 = Ret c.
Proof.
  intros Hreads Hperm Hurl. rewrite crawl_unfold by done. cbn [fst snd].
  split; [| rewrite merge_loop_result; by eexists].
  assert (Hf : (url, process_url uni_space uni_alnum w url)
               ∈ as_completed w (futures uni_space uni_alnum w)).
  { rewrite Hperm. unfold futures. apply list_elem_of_fmap. by exists url. }
  destruct (merge_loop_logs (length (all_urls uni_space w)) 1 _ [] _ Hf) as [H1 H2].
  cbn [fst snd] in H1, H2. unfold process_url in H1, H2.
  destruct (fetch w url) as [e|resp].
  - rewrite !elem_of_app. right. right. apply H1. left.
  - destruct (BeautifulSoup w (resp_text resp)) as [soup|e]; [done |].
    rewrite !elem_of_app. right. right. by apply H2.
Qed.

Lemma page_failures_are_logged_witness :
  match fetch (sample_world urlset_in_namespace None (Some [])) url_b with
  | inl e =>
      WarnDownload url_b (RequestException e)
      ∈ (crawl no_unicode no_unicode
           (sample_world urlset_in_namespace None (Some []))).1
  | inr resp =>
      match BeautifulSoup (sample_world urlset_in_namespace None (Some []))
              (resp_text resp) with
      | Raise e =>
          ErrProcessing url_b e
          ∈ (crawl no_unicode no_unicode
               (sample_world urlset_in_namespace None (Some []))).1
      | Ret _ => True
      end
  end
  ∧ ∃ c, (crawl no_unicode no_unicode
            (sample_world urlset_in_namespace None (Some []))).2 = Ret c.
Proof.
  apply (page_failures_are_logged no_unicode no_unicode
           (sample_world urlset_in_namespace None (Some [])) url_b).
  - sample_reads_return.
  - intros fs. apply reverse_Permutation.
  - apply list_elem_of_In. vm_compute. right. left. reflexivity.
Defined.

Lemma keys_count_text_qualify us ua t :
  Forall (fun k => qualifies k = true) (keys (count_text us ua t)).
Proof.
  apply Forall_forall. intros k Hk. unfold count_text in Hk.
  apply keys_foldl_count_sentence in Hk as [Hk|(s & _ & Hk)].
  - by apply elem_of_nil in Hk.
  - assert (Hin : k ∈ findall us ua cap_word s).
    { destruct (findall us ua cap_word s) as [|x l]; [done | by right]. }
    rewrite findall_cap_word in Hin. by apply list_elem_of_filter in Hin as [? _].
Qed.

(** X5.  Every word of the counter of a page, and so, when reading the
    sitemaps returns and the pool hands back the futures it was given,
    every word of the counter the crawl returns, is an uppercase ASCII letter followed by two or more ASCII
    letters: no other string is ever written to the report. *)
Theorem only_capitalised_words_are_counted (uni_space uni_alnum : char → bool)
    (w : World) :
  reads_return uni_space w sitemap_urls →
  (∀ fs, as_completed w fs ≡ₚ fs) →
  (∀ url, Forall (fun k => qualifies k = true)
                 (keys (page_counter (url, process_url uni_space uni_alnum w url))))
  ∧ ∃ l c, crawl uni_space uni_alnum w = (l, Ret c)
           ∧ Forall (fun k => qualifies k = true) (keys c)
           ∧ Forall (fun e => qualifies e.1 = true) (most_common c).
Proof.
  intros Hreads Hperm.
  assert (Hpage : ∀ url, Forall (fun k => qualifies k = true)
                    (keys (page_counter (url, process_url uni_space uni_alnum w url)))).
  { intros url.
    destruct (page_counter_process_url uni_space uni_alnum w url) as [->|[t ->]].
    - constructor.
    - apply keys_count_text_qualify. }
  split; [done |].
  rewrite crawl_unfold, merge_loop_result by done.
  eexists _, _. split; [reflexivity |].
  set (c := foldl update [] _).
  assert (Hq : Forall (fun k => qualifies k = true) (keys c)).
  { apply Forall_forall. intros k Hk. subst c.
    apply keys_foldl_update in Hk as [Hk|(c' & Hc' & Hk)].
    - by apply elem_of_nil in Hk.
    - apply list_elem_of_fmap in Hc' as (f & -> & Hf).
      apply (completed_futures _ _ _ _ Hperm) in Hf as (url & _ & ->).
      specialize (Hpage url). rewrite Forall_forall in Hpage. by apply Hpage. }
  split; [done |].
  apply Forall_forall. intros e He. rewrite Forall_forall in Hq. apply Hq.
  rewrite most_common_perm in He. unfold keys. apply list_elem_of_fmap. by exists e.
Qed.

Lemma only_capitalised_words_are_counted_witness :
  (∀ url, Forall (fun k => qualifies k = true)
                 (keys (page_counter
                          (url, process_url no_unicode no_unicode
                                  (sample_world urlset_in_namespace None (Some []))
                                  url))))
  ∧ ∃ l c, crawl no_unicode no_unicode
             (sample_world urlset_in_namespace None (Some [])) = (l, Ret c)
           ∧ Forall (fun k => qualifies k = true) (keys c)
           ∧ Forall (fun e => qualifies e.1 = true) (most_common c).
Proof.
  apply (only_capitalised_words_are_counted no_unicode no_unicode
           (sample_world urlset_in_namespace None (Some []))).
  - sample_reads_return.
  - intros fs. apply reverse_Permutation.
Defined.

(** ** Nothing is lost in the merge *)

Lemma sum_counts_foldl_add acc d :
  sum_counts (foldl (fun acc '(elem, count) => setitem acc elem (count + get acc elem))
                    acc d)
  = sum_counts acc + sum_counts d.
Proof.
  revert acc. induction d as [|[k n] d IH]; intros acc; cbn [foldl sum_counts]; [lia |].
  rewrite IH, sum_counts_setitem. lia.
Qed.

Lemma sum_counts_foldl_set acc d :
  is_dict d → (∀ k, k ∈ keys d → k ∉ keys acc) →
  sum_counts (foldl (fun acc '(elem, count) => setitem acc elem count) acc d)
  = sum_counts acc + sum_counts d.
Proof.
  revert acc. induction d as [|[k n] d IH]; intros acc Hd Hfresh;
    cbn [foldl sum_counts]; [lia |].
  apply NoDup_cons in Hd as [Hk Hd].
  assert (Hnew : k ∉ keys acc) by (apply Hfresh; rewrite keys_cons; left).
  rewrite IH, sum_counts_setitem, (get_not_in_keys acc k Hnew); [lia | done |].
  intros k' Hk'. rewrite keys_setitem, decide_False by done.
  rewrite elem_of_app, list_elem_of_singleton. intros [Hin| ->]; [| done].
  revert Hin. apply Hfresh. rewrite keys_cons. by right.
Qed.

Lemma sum_counts_update self other :
  is_dict other → sum_counts (update self other) = sum_counts self + sum_counts other.
Proof.
  intros Hd. unfold update. destruct self as [|e self].
  - rewrite sum_counts_foldl_set; [done | done |].
    intros k _. apply not_elem_of_nil.
  - apply sum_counts_foldl_add.
Qed.

Lemma sum_counts_foldl_update tc cs :
  Forall is_dict cs → sum_counts (foldl update tc cs) = sum_counts tc + total_of cs.
Proof.
  intros Hcs. revert tc. induction Hcs as [|c cs Hc _ IH]; intros tc;
    cbn [foldl total_of]; [lia |].
  rewrite IH, sum_counts_update by done. lia.
Qed.

Lemma total_of_perm cs cs' : cs ≡ₚ cs' → total_of cs = total_of cs'.
Proof. induction 1; cbn [total_of]; lia. Qed.

Lemma sum_counts_foldl_count_sentence us ua c ss :
  sum_counts (foldl (count_sentence us ua) c ss)
  = sum_counts c
    + Z.of_nat (length (flat_map (fun s => drop 1 (findall us ua cap_word s)) ss)).
Proof.
  revert c. induction ss as [|s ss IH]; intros c; cbn [foldl flat_map length]; [lia |].
  rewrite IH, length_app. unfold count_sentence.
  rewrite sum_counts_foldl_incr. lia.
Qed.

(** X6.  The counts of a page add up to the number of tokens counted on
    it, one for each capitalised token past the first of its sentence;
    and, when reading the sitemaps returns and the pool hands back the
    futures it was given, the counts of the counter the crawl returns add up to the sum over all listed pages:
    the merge neither drops a count nor applies one twice. *)
Theorem merge_keeps_the_number_of_counts (uni_space uni_alnum : char → bool)
    (w : World) :
  reads_return uni_space w sitemap_urls →
  (∀ fs, as_completed w fs ≡ₚ fs) →
  (∀ text,
     sum_counts (count_text uni_space uni_alnum text)
     = Z.of_nat (length (flat_map (fun s => drop 1 (findall uni_space uni_alnum cap_word s))
                                  (split uni_space uni_alnum sentence_sep text))))
  ∧ ∃ l c,
      crawl uni_space uni_alnum w = (l, Ret c)
      ∧ sum_counts c
        = total_of (map (fun url =>
                           page_counter (url, process_url uni_space uni_alnum w url))
                        (all_urls uni_space w)).
Proof.
  intros Hreads Hperm. split.
  - intros text. unfold count_text. by rewrite sum_counts_foldl_count_sentence.
  - rewrite crawl_unfold, merge_loop_result by done.
    eexists _, _. split; [reflexivity |].
    assert (Hp : map page_counter (as_completed w (futures uni_space uni_alnum w))
                 ≡ₚ map page_counter (futures uni_space uni_alnum w)).
    { apply Permutation_map, Hperm. }
    rewrite sum_counts_foldl_update.
    + rewrite (total_of_perm _ _ Hp), page_counters_of_futures. cbn [sum_counts]. lia.
    + rewrite Hp. apply is_dict_futures.
Qed.

Lemma merge_keeps_the_number_of_counts_witness :
  (∀ text,
     sum_counts (count_text no_unicode no_unicode text)
     = Z.of_nat (length (flat_map (fun s => drop 1 (findall no_unicode no_unicode cap_word s))
                                  (split no_unicode no_unicode sentence_sep text))))
  ∧ ∃ l c,
      crawl no_unicode no_unicode (sample_world urlset_in_namespace None (Some []))
      = (l, Ret c)
      ∧ sum_counts c
        = total_of (map (fun url =>
                           page_counter
                             (url, process_url no_unicode no_unicode
                                     (sample_world urlset_in_namespace None (Some []))
                                     url))
                        (all_urls no_unicode
                           (sample_world urlset_in_namespace None (Some [])))).
Proof.
  apply (merge_keeps_the_number_of_counts no_unicode no_unicode
           (sample_world urlset_in_namespace None (Some []))).
  - sample_reads_return.
  - intros fs. apply reverse_Permutation.
Defined.

(** ** A crawl without pages *)

(** X7.  When reading the sitemaps returns and gives no URL, and the pool,
    given nothing, hands back nothing, the crawl logs the lines of the
    sitemaps and a start line for 0 pages, no progress line, and returns
    the empty counter, whose report is empty.  When the file can be
    written, the empty report is what is written and the exit depends on
    the prompt only; when it cannot, nothing is written and the program
    exits with status 1. *)
Theorem crawl_without_urls (uni_space uni_alnum : char → bool) (w : World) :
  reads_return uni_space w sitemap_urls →
  all_urls uni_space w = [] →
  as_completed w [] = [] →
  crawl uni_space uni_alnum w
  = (flat_map (fun sm => (get_urls_from_sitemap uni_space w sm).1) sitemap_urls
       ++ [InfoStart 0],
     Ret [])
  ∧ report [] = []
  ∧ match write_file w output_file [] with
    | None =>
        written (main uni_space uni_alnum w) = Some []
        ∧ exit (main uni_space uni_alnum w)
          = match input w with Some _ => Normal | None => Uncaught EOFError end
    | Some e =>
        written (main uni_space uni_alnum w) = None
        ∧ exit (main uni_space uni_alnum w) = SysExit 1
    end.
Proof.
  intros Hreads Hurls Hnone.
  assert (Hcrawl : crawl uni_space uni_alnum w
                   = (flat_map (fun sm => (get_urls_from_sitemap uni_space w sm).1)
                               sitemap_urls ++ [InfoStart 0], Ret [])).
  { rewrite crawl_unfold by done. unfold futures. rewrite Hurls. cbn [map length].
    by rewrite Hnone. }
  split_and!; [done | done |].
  unfold main. rewrite Hcrawl. change (report []) with (@nil char).
  destruct (write_file w output_file []) as [e|]; [done |].
  by destruct (input w).
Qed.

Lemma crawl_without_urls_witness :
  crawl no_unicode no_unicode (sample_world urlset_bare None (Some []))
  = (flat_map (fun sm => (get_urls_from_sitemap no_unicode
                            (sample_world urlset_bare None (Some [])) sm).1)
              sitemap_urls
       ++ [InfoStart 0],
     Ret [])
  ∧ report [] = []
  ∧ match write_file (sample_world urlset_bare None (Some [])) output_file [] with
    | None =>
        written (main no_unicode no_unicode (sample_world urlset_bare None (Some [])))
        = Some []
        ∧ exit (main no_unicode no_unicode (sample_world urlset_bare None (Some [])))
          = match input (sample_world urlset_bare None (Some [])) with
            | Some _ => Normal
            | None => Uncaught EOFError
            end
    | Some e =>
        written (main no_unicode no_unicode (sample_world urlset_bare None (Some [])))
        = None
        ∧ exit (main no_unicode no_unicode (sample_world urlset_bare None (Some [])))
          = SysExit 1
    end.
Proof.
  apply (crawl_without_urls no_unicode no_unicode
           (sample_world urlset_bare None (Some []))).
  - sample_reads_return.
  - vm_compute. reflexivity.
  - reflexivity.
Defined.

(** ** The sentences of a text *)

Lemma end_mark_not_space us c : is_end_mark c = true → is_space us c = false.
Proof.
  unfold is_end_mark. rewrite !orb_true_iff, !N.eqb_eq.
  intros [[->| ->]| ->]; reflexivity.
Qed.

Lemma leading_take ok s : forallb ok (take (leading ok s) s) = true.
Proof.
  induction s as [|c s IH]; [done |]. cbn [leading].
  destruct (ok c) eqn:Hc; [| done]. cbn [take forallb]. by rewrite Hc, IH.
Qed.

Lemma leading_le ok s : (leading ok s ≤ length s)%nat.
Proof.
  induction s as [|c s IH]; [done |]. cbn [leading length].
  destruct (ok c); lia.
Qed.

Section Sentences.

Variable uni_space : char → bool.
Variable uni_alnum : char → bool.

Local Abbreviation space := (is_space uni_space).
Local Abbreviation cut := (split_from uni_space uni_alnum sentence_sep).

(** A greedy repetition with nothing after it takes all it can. *)
Lemma match_rep_greedy ok n prev s :
  match_rep ok (match_here uni_space uni_alnum []) n prev s
  = if (n <=? leading ok s)%nat then Some (leading ok s) else None.
Proof.
  revert n prev. induction s as [|c s IH]; intros n prev.
  - cbn [match_rep leading match_here]. by destruct n.
  - cbn [match_rep leading]. destruct (ok c).
    + rewrite IH. destruct n as [|n]; cbn [Nat.pred Nat.leb]; [done |].
      by destruct (n <=? leading ok s)%nat.
    + by destruct n.
Qed.

(** The separator matches where white space follows an end mark, and
    takes all of the white space. *)
Lemma match_sentence_sep prev s :
  match_here uni_space uni_alnum sentence_sep prev s
  = if mark_before prev && (1 <=? leading space s)%nat
    then Some (leading space s) else None.
Proof.
  unfold sentence_sep. cbn [match_here]. destruct prev as [p|]; [| done].
  cbn [mark_before atom_ok existsb set_item_ok]. rewrite orb_false_r, orb_assoc.
  fold (is_end_mark p). destruct (is_end_mark p); [| done].
  apply (match_rep_greedy (atom_ok uni_space ASpace)).
Qed.

Lemma mark_at_end_cons prev c p : mark_at_end prev (c :: p) = mark_at_end (Some c) p.
Proof.
  unfold mark_at_end. destruct p as [|d p]; [reflexivity |].
  change (last (c :: d :: p)) with (last (d :: p)).
  destruct (last (d :: p)) eqn:E; [done |]. by apply last_None in E.
Qed.

Lemma split_from_shape s :
  (∀ prev, ∃ p ps seps,
      cut prev s O = p :: ps
      ∧ length ps = length seps
      ∧ s = weave (p :: ps) seps
      ∧ Forall (sep_ok uni_space) seps
      ∧ (ps = [] ∨ mark_at_end prev p = true)
      ∧ all_but_last ends_with_mark ps = true
      ∧ forallb (fun p => negb (starts_with_space uni_space p)) ps = true)
  ∧ (∀ prev k,
       match prev with Some c => space c = true | None => False end →
       leading space s = k →
       ∃ ps seps,
         cut prev s k = ps
         ∧ length ps = S (length seps)
         ∧ drop k s = weave ps seps
         ∧ Forall (sep_ok uni_space) seps
         ∧ all_but_last ends_with_mark ps = true
         ∧ forallb (fun p => negb (starts_with_space uni_space p)) ps = true).
Proof.
  induction s as [|c s [IH0 IHk]].
  - split.
    + intros prev. exists [], [], []. by split_and!; [..| left | |].
    + intros prev k _ <-. exists [[]], []. by split_and!.
  - assert (H0 : ∀ prev, ∃ p ps seps,
        cut prev (c :: s) O = p :: ps
        ∧ length ps = length seps
        ∧ c :: s = weave (p :: ps) seps
        ∧ Forall (sep_ok uni_space) seps
        ∧ (ps = [] ∨ mark_at_end prev p = true)
        ∧ all_but_last ends_with_mark ps = true
        ∧ forallb (fun p => negb (starts_with_space uni_space p)) ps = true).
    { intros prev. cbn [split_from]. rewrite match_sentence_sep.
      destruct (mark_before prev && (1 <=? leading space (c :: s))%nat) eqn:Hm.
      - apply andb_true_iff in Hm as [Hmark Hlead]. apply Nat.leb_le in Hlead.
        cbn [leading] in *. destruct (space c) eqn:Hc; [| lia].
        destruct (IHk (Some c) (leading space s) Hc eq_refl)
          as (ps & seps & Hcut & Hlen & Hdrop & Hseps & Hends & Hstarts).
        exists [], ps, ((c :: take (leading space s) s) :: seps).
        rewrite Hcut. split_and!; try done.
        + change (c :: s = (c :: take (leading space s) s) ++ weave ps seps).
          rewrite <- Hdrop. cbn [app]. by rewrite take_drop.
        + constructor; [| done]. split; [done |]. cbn [forallb].
          by rewrite Hc, leading_take.
        + right. unfold mark_at_end. by cbn [last].
      - cbv iota.
        destruct (IH0 (Some c)) as (p & ps & seps & Hcut & Hlen & Hs & Hseps & Hmk & Hends & Hst).
        rewrite Hcut. exists (c :: p), ps, seps. split_and!; try done.
        + destruct seps as [|sep seps]; destruct ps as [|q ps]; try done;
            cbn [weave app] in *; by rewrite Hs at 1.
        + destruct Hmk as [->|Hmk]; [by left | right]. by rewrite mark_at_end_cons. }
    split; [exact H0 |].
    intros prev k Hprev Hk. destruct k as [|k].
    + destruct (H0 prev) as (p & ps & seps & Hcut & Hlen & Hs & Hseps & Hmk & Hends & Hst).
      exists (p :: ps), seps. split_and!; try done.
      * cbn [length]. lia.
      * destruct prev as [d|]; [| done].
        destruct ps as [|q ps]; [done |]. cbn [all_but_last] in *.
        rewrite Hends, andb_true_r.
        destruct Hmk as [?|Hmk]; [done |]. unfold mark_at_end in Hmk.
        unfold ends_with_mark. destruct (last p); [done |].
        cbn [mark_before] in Hmk. apply (end_mark_not_space uni_space) in Hmk.
        congruence.
      * cbn [forallb]. rewrite Hst, andb_true_r.
        cbn [leading] in Hk. destruct p as [|x p]; [done |].
        cbn [starts_with_space].
        assert (x = c) as ->.
        { destruct seps as [|sep seps]; destruct ps as [|q ps];
            cbn [weave app] in Hs; by injection Hs. }
        by destruct (space c).
    + cbn [leading] in Hk. destruct (space c) eqn:Hc; [| done].
      injection Hk as Hk. cbn [split_from drop].
      destruct (IHk (Some c) k Hc Hk) as (ps & seps & Hcut & Hrest).
      exists ps, seps. by rewrite Hcut.
Qed.

End Sentences.

(** X8.  The sentences of a text are its stretches between separators:
    put back together with the separators they give the text again, each
    separator being white space, at least one character; every sentence
    but the last ends with a full stop, an exclamation mark or a question
    mark, and no sentence after the first starts with white space. *)
Theorem sentences_partition_the_text (uni_space uni_alnum : char → bool) (text : str) :
  ∃ seps,
    length (split uni_space uni_alnum sentence_sep text) = S (length seps)
    ∧ text = weave (split uni_space uni_alnum sentence_sep text) seps
    ∧ Forall (sep_ok uni_space) seps
    ∧ all_but_last ends_with_mark (split uni_space uni_alnum sentence_sep text) = true
    ∧ forallb (fun p => negb (starts_with_space uni_space p))
              (tl (split uni_space uni_alnum sentence_sep text)) = true.
Proof.
  destruct (split_from_shape uni_space uni_alnum text) as [H0 _].
  destruct (H0 None) as (p & ps & seps & Hcut & Hlen & Hs & Hseps & Hmk & Hends & Hst).
  exists seps. unfold split. rewrite Hcut. cbn [tl length].
  split_and!; try done; [lia |].
  destruct ps as [|q ps]; [done |].
  change (ends_with_mark p && all_but_last ends_with_mark (q :: ps) = true).
  rewrite Hends, andb_true_r.
  destruct Hmk as [?|Hmk]; [done |]. unfold mark_at_end in Hmk.
  unfold ends_with_mark. by destruct (last p).
Qed.

Lemma split_from_without_marks us ua prev s :
  mark_before prev = false →
  forallb (fun c => negb (is_end_mark c)) s = true →
  split_from us ua sentence_sep prev s O = [s].
Proof.
  revert prev. induction s as [|c s IH]; intros prev Hprev Hs; [done |].
  cbn [forallb] in Hs. apply andb_true_iff in Hs as [Hc Hs].
  cbn [split_from]. rewrite match_sentence_sep, Hprev. cbn [andb].
  rewrite IH; [done | | done]. cbn [mark_before]. by destruct (is_end_mark c).
Qed.

(** X9.  A text without a full stop, exclamation mark or question mark is
    one sentence, however long and whatever its line breaks: of all its
    capitalised tokens only the very first is left out. *)
Theorem text_without_end_marks_is_one_sentence (uni_space uni_alnum : char → bool)
    (text : str) :
  forallb (fun c => negb (is_end_mark c)) text = true →
  split uni_space uni_alnum sentence_sep text = [text]
  ∧ count_text uni_space uni_alnum text
    = foldl incr [] (drop 1 (findall uni_space uni_alnum cap_word text))
  ∧ sum_counts (count_text uni_space uni_alnum text)
    = Z.of_nat (length (findall uni_space uni_alnum cap_word text) - 1).
Proof.
  intros Hs.
  assert (Hsplit : split uni_space uni_alnum sentence_sep text = [text]).
  { by apply split_from_without_marks. }
  assert (Hcount : count_text uni_space uni_alnum text
                   = foldl incr [] (drop 1 (findall uni_space uni_alnum cap_word text))).
  { unfold count_text. by rewrite Hsplit. }
  split_and!; [done | done |].
  rewrite Hcount, sum_counts_foldl_incr, length_drop. cbn [sum_counts]. lia.
Qed.

Lemma text_without_end_marks_is_one_sentence_witness :
  split no_unicode no_unicode sentence_sep (of_ascii "Visit Rome and Paris, then Oslo")
  = [of_ascii "Visit Rome and Paris, then Oslo"]
  ∧ count_text no_unicode no_unicode (of_ascii "Visit Rome and Paris, then Oslo")
    = foldl incr []
        (drop 1 (findall no_unicode no_unicode cap_word
                   (of_ascii "Visit Rome and Paris, then Oslo")))
  ∧ sum_counts (count_text no_unicode no_unicode
                  (of_ascii "Visit Rome and Paris, then Oslo"))
    = Z.of_nat (length (findall no_unicode no_unicode cap_word
                          (of_ascii "Visit Rome and Paris, then Oslo")) - 1).
Proof.
  apply (text_without_end_marks_is_one_sentence no_unicode no_unicode
           (of_ascii "Visit Rome and Paris, then Oslo")).
  vm_compute. reflexivity.
Defined.

(** ** The order of the words *)

Lemma keys_incr c w :
  keys (incr c w) = if decide (w ∈ keys c) then keys c else keys c ++ [w].
Proof. apply keys_setitem. Qed.

Lemma keys_foldl_incr_order c ws :
  keys (foldl incr c (ws))
  = foldl (fun ks w => if decide (w ∈ ks) then ks else ks ++ [w]) (keys c) ws.
Proof.
  revert c. induction ws as [|w ws IH]; intros c; [done |].
  cbn [foldl]. by rewrite IH, keys_incr.
Qed.

Lemma first_occurrences (ws : list str) :
  foldl (fun ks w => if decide (w ∈ ks) then ks else ks ++ [w]) [] ws
  = reverse (remove_dups (reverse ws)).
Proof.
  induction ws as [|w ws IH] using rev_ind; [done |].
  rewrite foldl_app. cbn [foldl]. rewrite IH, reverse_app. cbn [reverse app].
  change (reverse [w]) with [w]. cbn [app remove_dups].
  destruct (decide (w ∈ reverse (remove_dups (reverse ws)))) as [Hin|Hin];
    rewrite elem_of_reverse, elem_of_remove_dups in Hin;
    destruct (decide_rel elem_of w (reverse ws)) as [Hin'|Hin']; try done.
  by rewrite reverse_cons.
Qed.

(** X10.  The words of the counter of a page stand in the order in which
    they were first counted, each once: the counted tokens of the
    sentences, one sentence after the other, with every repetition after
    the first struck out. *)
Theorem words_in_order_of_first_count (uni_space uni_alnum : char → bool) (text : str) :
  keys (count_text uni_space uni_alnum text)
  = reverse (remove_dups (reverse
      (flat_map (fun s => drop 1 (findall uni_space uni_alnum cap_word s))
                (split uni_space uni_alnum sentence_sep text))))
  ∧ NoDup (keys (count_text uni_space uni_alnum text)).
Proof.
  split; [| apply is_dict_count_text].
  rewrite <- first_occurrences. unfold count_text.
  generalize (split uni_space uni_alnum sentence_sep text). intros ss.
  change (@nil str) with (keys []) at 2. generalize (@nil (str * Z)). intros c.
  revert c. induction ss as [|s ss IH]; intros c; [done |].
  cbn [foldl flat_map]. rewrite IH, foldl_app. unfold count_sentence.
  by rewrite keys_foldl_incr_order.
Qed.

(** ** A loc of white space *)

Lemma lstrip_all_space us t : forallb (is_space us) t = true → lstrip us t = [].
Proof.
  induction t as [|c t IH]; [done |]. cbn [forallb lstrip].
  intros [Hc Ht]%andb_true_iff. rewrite Hc. by apply IH.
Qed.

Lemma strip_all_space us t : forallb (is_space us) t = true → strip us t = [].
Proof. intros Ht. unfold strip. by rewrite (lstrip_all_space us t Ht). Qed.

(** X11.  The test whether a [loc] has a text is made before the white
    space is cut off: a [loc] of the sitemap namespace whose text is white
    space only, as an indented empty element gives, puts the empty string
    among the URLs returned. *)
Theorem blank_loc_yields_empty_url (uni_space : char → bool) (w : World)
    (sitemap_url : str) (resp : Response) (root loc : Element) (t : str) :
  fetch w sitemap_url = inr resp →
  ET_fromstring w (content resp) = Ret root →
  loc ∈ findall_descendants sitemap_loc root →
  text loc = Some t →
  t ≠ [] →
  forallb (is_space uni_space) t = true →
  ∃ l urls, get_urls_from_sitemap uni_space w sitemap_url = (l, Ret urls)
            ∧ [] ∈ urls.
Proof.
  intros Hfetch Hparse Hloc Htext Hne Hspace.
  unfold get_urls_from_sitemap. rewrite Hfetch, Hparse.
  eexists _, _. split; [reflexivity |].
  unfold loc_urls. apply elem_of_flat_map. exists loc. split; [done |].
  rewrite Htext. destruct t as [|c t]; [done |].
  rewrite strip_all_space by done. left.
Qed.

Lemma blank_loc_yields_empty_url_witness :
  ∃ l urls,
    get_urls_from_sitemap no_unicode (sample_world urlset_blank_loc None (Some []))
      sitemap_1
    = (l, Ret urls)
    ∧ [] ∈ urls.
Proof.
  apply (blank_loc_yields_empty_url no_unicode
           (sample_world urlset_blank_loc None (Some [])) sitemap_1
           (ok_response (of_ascii "sitemap")) urlset_blank_loc
           (Elem (sitemap_ns "loc") (Some (of_ascii "  ")) []) (of_ascii "  ")).
  - vm_compute. reflexivity.
  - vm_compute. reflexivity.
  - apply list_elem_of_In. vm_compute. right. left. reflexivity.
  - reflexivity.
  - discriminate.
  - vm_compute. reflexivity.
Defined.

(** ** The lines of the report *)

Lemma count_char_app x s s' : count_char x (s ++ s') = (count_char x s + count_char x s')%nat.
Proof.
  induction s as [|c s IH]; [done |]. cbn [app count_char]. rewrite IH. lia.
Qed.

Lemma count_char_none x s : x ∉ s → count_char x s = O.
Proof.
  induction s as [|c s IH]; intros Hx; [done |]. cbn [count_char].
  destruct (c =? x)%N eqn:Hc.
  - apply N.eqb_eq in Hc as ->. exfalso. apply Hx. left.
  - apply IH. intros Hin. apply Hx. by right.
Qed.

Lemma digits_of_uint d :
  Forall (fun c => is_digit c = true) (of_ascii (NilEmpty.string_of_uint d)).
Proof. induction d; cbn; by constructor. Qed.

(** The decimal form of an integer holds digits and a minus sign only. *)
Lemma str_of_Z_chars n :
  Forall (fun c => is_digit c = true ∨ c = ch "-") (str_of_Z n).
Proof.
  unfold str_of_Z, NilZero.string_of_int.
  assert (Hu : ∀ d, Forall (fun c => is_digit c = true ∨ c = ch "-")
                      (of_ascii (NilZero.string_of_uint d))).
  { intros d. unfold NilZero.string_of_uint.
    assert (Hd := digits_of_uint d).
    destruct d; try (eapply Forall_impl; [exact Hd | by left]).
    repeat constructor. }
  destruct (Z.to_int n) as [d|d]; [apply Hu |].
  change (of_ascii (String "-" (NilZero.string_of_uint d)))
    with (ch "-" :: of_ascii (NilZero.string_of_uint d)).
  constructor; [by right | apply Hu].
Qed.

Lemma report_line_marks e :
  qualifies e.1 = true →
  count_char (ch "009") (report_line e) = 1%nat
  ∧ count_char (ch "010") (report_line e) = 1%nat.
Proof.
  intros Hq. apply qualifies_shape in Hq as (c & t & He & Hu & Ht & _).
  assert (Hword : ∀ x, is_alpha x = false → x ∉ e.1).
  { intros x Hx Hin. rewrite He in Hin. apply elem_of_cons in Hin as [->|Hin].
    - apply is_upper_is_alpha in Hu. congruence.
    - rewrite Forall_forall in Ht. apply Ht in Hin. congruence. }
  assert (Hnum : ∀ x, is_digit x = false → x ≠ ch "-" → x ∉ str_of_Z e.2).
  { intros x Hx Hm Hin. pose proof (str_of_Z_chars e.2) as Hd.
    rewrite Forall_forall in Hd. destruct (Hd x Hin); congruence. }
  unfold report_line. rewrite !count_char_app.
  rewrite !(count_char_none _ e.1), !(count_char_none _ (str_of_Z e.2));
    [done | by apply Hnum | by apply Hnum | by apply Hword | by apply Hword].
Qed.

(** X12.  When the words of a counter are capitalised words, as those the
    crawl returns are, the report holds exactly one tab and one newline
    for each word of the counter: every line is a word, a tab and a count,
    and there are as many lines as words. *)
Theorem report_has_a_line_per_word (c : Counter) :
  Forall (fun k => qualifies k = true) (keys c) →
  count_char (ch "010") (report c) = length c
  ∧ count_char (ch "009") (report c) = length c.
Proof.
  intros Hq.
  assert (Hq' : Forall (fun e : str * Z => qualifies e.1 = true) (most_common c)).
  { apply Forall_forall. intros e He. rewrite Forall_forall in Hq. apply Hq.
    rewrite most_common_perm in He. unfold keys. apply list_elem_of_fmap. by exists e. }
  rewrite <- (Permutation_length (most_common_perm c)). unfold report.
  induction Hq' as [|e l He _ IH]; [done |].
  cbn [map concat length]. rewrite !count_char_app.
  destruct (report_line_marks e He) as [-> ->]. destruct IH as [-> ->]. done.
Qed.

Lemma report_has_a_line_per_word_witness :
  count_char (ch "010") (report apple_banana_cherry) = length apple_banana_cherry
  ∧ count_char (ch "009") (report apple_banana_cherry) = length apple_banana_cherry.
Proof.
  apply (report_has_a_line_per_word apple_banana_cherry).
  repeat constructor.
Defined.

(** ** The order of the words of the global counter *)

Lemma keys_foldl_setitem_order (f : Counter → str → Z → Z) acc d :
  keys (foldl (fun acc '(elem, count) => setitem acc elem (f acc elem count)) acc d)
  = foldl (fun ks w => if decide (w ∈ ks) then ks else ks ++ [w]) (keys acc) (keys d).
Proof.
  revert acc. induction d as [|[k n] d IH]; intros acc; [done |].
  rewrite keys_cons. cbn [foldl]. by rewrite IH, keys_setitem.
Qed.

Lemma keys_update_order self other :
  keys (update self other)
  = foldl (fun ks w => if decide (w ∈ ks) then ks else ks ++ [w]) (keys self) (keys other).
Proof.
  unfold update. destruct self as [|e self].
  - apply (keys_foldl_setitem_order (fun _ _ n => n)).
  - apply (keys_foldl_setitem_order (fun acc elem n => n + get acc elem)).
Qed.

Lemma keys_foldl_update_order tc cs :
  keys (foldl update tc cs)
  = foldl (fun ks w => if decide (w ∈ ks) then ks else ks ++ [w]) (keys tc)
          (flat_map keys cs).
Proof.
  revert tc. induction cs as [|c cs IH]; intros tc; [done |].
  cbn [foldl flat_map]. by rewrite IH, foldl_app, keys_update_order.
Qed.

(** X13.  The words of the global counter stand in the order in which the
    merge first met them: the words of the pages, page after page in the
    order of completion, with every repetition after the first struck out.
    Words of equal count come in the report in that order, so the order
    of completion decides how ties are written. *)
Theorem global_words_in_order_of_completion (total idx : nat)
    (fs : list (str * Py Counter)) :
  ∃ c, (merge_loop total idx fs []).2 = Ret c
       ∧ keys c
         = reverse (remove_dups (reverse
             (flat_map (fun f => keys (page_counter f)) fs)))
       ∧ ∀ n, filter (fun e : str * Z => e.2 = n) (most_common c)
              = filter (fun e : str * Z => e.2 = n) c.
Proof.
  exists (foldl update [] (map page_counter fs)). split; [apply merge_loop_result |].
  split.
  - rewrite keys_foldl_update_order, keys_nil, first_occurrences.
    do 3 f_equal. induction fs as [|f fs IH]; [done |].
    cbn [map flat_map]. by rewrite IH.
  - intros n. apply most_common_stable.
Qed.
